(** * Medical-text-cleaner: the shorthand expansion engine of [cleanser.py]

    A shallow embedding of [load_replacements], [apply_regex],
    [bulk_replace] and [clean_notes] (src/cleanser.py) and of the copy of
    [apply_regex] in src/cleansing4.py, with the properties of the
    specification stated and proved over them.

    Text model.  A Python [str] is a sequence of code points; here a text
    is a [list ascii] whose characters are read as the code points
    U+0000..U+00FF (ASCII and the Latin-1 supplement, the range of the
    ISO-8859-1 fallback of the file readers).  On that range [\w], [\s],
    [str.lower] and [str.strip] are the tables below. *)

From Stdlib Require Import Ascii String ZArith NArith Lia Bool.
From Stdlib Require Import Numbers.DecimalString.
From stdpp Require Import base list strings gmap.

Local Open Scope char_scope.
Local Open Scope list_scope.

(** ** Characters and texts *)

Abbreviation text := (list ascii).

(** A text literal. *)
Definition txt (s : string) : text := list_ascii_of_string s.

Definition code (c : ascii) : N := N_of_ascii c.

Definition in_range (lo hi n : N) : bool := ((lo <=? n) && (n <=? hi))%N.

(** [str.isalnum] on U+0000..U+00FF: letters, decimal digits and the
    numeric characters of the Latin-1 supplement. *)
Definition is_alnum (c : ascii) : bool :=
  let n := code c in
  in_range 48 57 n || in_range 65 90 n || in_range 97 122 n
  || (n =? 170)%N || (n =? 178)%N || (n =? 179)%N || (n =? 181)%N
  || (n =? 185)%N || (n =? 186)%N || in_range 188 190 n
  || in_range 192 214 n || in_range 216 246 n || in_range 248 255 n.

(** The class [\w] of a [str] pattern: alphanumeric or underscore. *)
Definition is_word (c : ascii) : bool := is_alnum c || (code c =? 95)%N.

(** The class [\s] of a [str] pattern, which is also what [str.strip]
    removes: [str.isspace]. *)
Definition is_space (c : ascii) : bool :=
  let n := code c in
  in_range 9 13 n || in_range 28 32 n || (n =? 133)%N || (n =? 160)%N.

Definition is_ascii_upper (c : ascii) : bool := in_range 65 90 (code c).

(** [str.lower] on one character: A-Z and the upper-case letters of the
    Latin-1 supplement move by 32. *)
Definition lower_char (c : ascii) : ascii :=
  let n := code c in
  if in_range 65 90 n || in_range 192 214 n || in_range 216 222 n
  then ascii_of_N (n + 32) else c.

(** [text.lower()] *)
Definition lower (s : text) : text := map lower_char s.

Fixpoint lstrip (s : text) : text :=
  match s with
  | c :: tl => if is_space c then lstrip tl else s
  | [] => []
  end.

Definition rstrip (s : text) : text := rev (lstrip (rev s)).

(** [text.strip()] *)
Definition strip (s : text) : text := rstrip (lstrip s).

(** ** Dictionaries

    A Python [dict] keeps its keys in insertion order; assigning to a key
    that is present replaces the value where it stands.  The order is what
    [replacements.keys()] hands to the alternation of the pattern. *)

Abbreviation dict := (list (text * text)).

Fixpoint dict_get {V} (d : list (text * V)) (k : text) : option V :=
  match d with
  | [] => None
  | (k', v) :: tl => if decide (k' = k) then Some v else dict_get tl k
  end.

Fixpoint dict_set {V} (d : list (text * V)) (k : text) (v : V)
    : list (text * V) :=
  match d with
  | [] => [(k, v)]
  | (k', v') :: tl =>
      if decide (k' = k) then (k', v) :: tl else (k', v') :: dict_set tl k v
  end.

Definition keys (d : dict) : list text := map fst d.

(** ** Patterns

    [Pattern alts] stands for the compiled expression [\b(a1|...|an)\b]
    whose alternatives are literals ([re.escape] makes every character of
    a key match itself). *)

Record Pattern := { alts : list text }.

(** ['|'.join] of no key at all is the empty string: the group then holds
    one empty alternative. *)
Definition compile_keys (ks : list text) : Pattern :=
  match ks with
  | [] => {| alts := [ [] ] |}
  | _ => {| alts := ks |}
  end.

(** A row of the replacement file, after [read_csv] and the renaming of
    the columns: the two fields are strings, a missing field is [None]. *)
Record row := { shorthand : option text; full_form : option text }.

(** [.dropna()] *)
Definition dropna (rows : list row) : list (text * text) :=
  omap (fun r => match shorthand r, full_form r with
                 | Some s, Some f => Some (s, f)
                 | _, _ => None
                 end) rows.

Definition normalise_entry (e : text * text) : text * text :=
  (lower (strip (fst e)), lower (strip (snd e))).

Definition load_replacements (rows : list row) : dict * Pattern :=
  let replacements :=
    fold_left (fun d e => dict_set d (fst (normalise_entry e))
                                     (snd (normalise_entry e)))
              (dropna rows) [] in
  (replacements, compile_keys (keys replacements)).

(** ** Matching [\b(a1|...|an)\b]

    What [re] does with such a pattern: at a position, [\b] must hold, then
    the alternatives are tried in order, each followed by [\b]; the first
    that succeeds is the match, and without one the search moves one
    character on.  After a match the search resumes where the match ended;
    after an empty match it first retries at the same position for a match
    that is not empty.

    The scan keeps [prev], whether the character before the current
    position is a word character ([false] at the start of the text), and
    [rest], the text from the current position on. *)

Definition starts_word (rest : text) : bool :=
  match rest with
  | [] => false
  | c :: _ => is_word c
  end.

(** [\b]: exactly one of the two neighbours is a word character. *)
Definition at_boundary (prev : bool) (rest : text) : bool :=
  xorb prev (starts_word rest).

(** The text left after the literal [a], when [rest] starts with it. *)
Fixpoint strip_prefix (a rest : text) : option text :=
  match a, rest with
  | [], _ => Some rest
  | x :: a', y :: rest' =>
      if decide (x = y) then strip_prefix a' rest' else None
  | _ :: _, [] => None
  end.

(** Whether the character before the end of the literal [a] is a word
    character, [a] starting after a character described by [prev]. *)
Fixpoint ends_word (prev : bool) (a : text) : bool :=
  match a with
  | [] => prev
  | c :: tl => ends_word (is_word c) tl
  end.

Definition is_nil (a : text) : bool :=
  match a with [] => true | _ => false end.

(** One alternative at the current position.  [must_advance] refuses the
    empty match (it is set for the retry that follows an empty match). *)
Definition match_alt (prev : bool) (rest : text) (must_advance : bool)
    (a : text) : bool :=
  at_boundary prev rest
  && match strip_prefix a rest with
     | Some rest' =>
         at_boundary (ends_word prev a) rest'
         && negb (must_advance && is_nil a)
     | None => false
     end.

(** The alternatives are tried in order; the first that succeeds is the
    match. *)
Definition match_here (p : Pattern) (prev : bool) (rest : text)
    (must_advance : bool) : option text :=
  List.find (match_alt prev rest must_advance) (alts p).

(** The matches that start at the current position: none, one, or an
    empty match followed by the non-empty one found on the retry. *)
Definition matches_at (p : Pattern) (prev : bool) (rest : text) : list text :=
  match match_here p prev rest false with
  | None => []
  | Some a =>
      if is_nil a
      then a :: match match_here p prev rest true with
                | Some a' => [a']
                | None => []
                end
      else [a]
  end.

(** The non-overlapping matches from the current position to the end, as
    (start, matched text), leftmost first.  [skip] counts the characters
    still inside the match in progress. *)
Fixpoint finditer_from (p : Pattern) (prev : bool) (pos skip : nat)
    (rest : text) : list (nat * text) :=
  match skip, rest with
  | S k, c :: tl => finditer_from p (is_word c) (S pos) k tl
  | S _, [] => []
  | 0, [] => map (pair pos) (matches_at p prev [])
  | 0, c :: tl =>
      let here := matches_at p prev rest in
      map (pair pos) here
      ++ finditer_from p (is_word c) (S pos) (pred (length (concat here))) tl
  end.

Definition finditer (p : Pattern) (s : text) : list (nat * text) :=
  finditer_from p false 0 0 s.

(** ** The counter and the exceptions

    A [Counter] is a [dict] whose missing keys read as 0. *)

Abbreviation Counter := (gmap text Z).

Inductive exn := KeyError (k : text).

(** Computations that update the counter and may raise. *)
Definition M (A : Type) : Type := Counter -> Counter * (exn + A).

Definition ret {A} (a : A) : M A := fun c => (c, inr a).
Definition raise {A} (e : exn) : M A := fun c => (c, inl e).
Definition bind {A B} (m : M A) (f : A -> M B) : M B :=
  fun c => match m c with
           | (c', inr a) => f a c'
           | (c', inl e) => (c', inl e)
           end.

Notation "'let*' x := m 'in' k" := (bind m (fun x => k))
  (at level 10, x pattern, m at level 100, k at level 200).

Definition count (c : Counter) (w : text) : Z := default 0%Z (c !! w).

(** [counter[word] += 1] *)
Definition incr (w : text) : M unit :=
  fun c => (<[w := (count c w + 1)%Z]> c, inr tt).

(** [pattern.sub(repl, s)] with a callable [repl]: the text between the
    matches is copied, each match is replaced by what [repl] returns. *)
Fixpoint splice (repl : text -> M text) (s : text) (i : nat)
    (ms : list (nat * text)) : M text :=
  match ms with
  | [] => ret (drop i s)
  | (b, w) :: ms' =>
      let* r := repl w in
      let* tl := splice repl s (b + length w) ms' in
      ret (take (b - i) (drop i s) ++ r ++ tl)
  end.

Definition sub (p : Pattern) (repl : text -> M text) (s : text) : M text :=
  splice repl s 0 (finditer p s).

(** ** [bulk_replace] *)

Definition replace_match (replacements : dict) (m : text) : M text :=
  let word := lower m in
  let* _ := incr word in
  match dict_get replacements word with
  | Some full => ret full
  | None => raise (KeyError word)
  end.

(** The argument is a [str] already, on which [str(text)] is the
    identity. *)
Definition bulk_replace (t : text) (replacements : dict) (pattern : Pattern)
    : M text :=
  sub pattern (replace_match replacements) (lower t).

(** ** [apply_regex] *)

(** [re.sub] for a pattern that is one character class, with a constant
    replacement: every character of the class is a match. *)
Definition sub_class (cls : ascii -> bool) (repl s : text) : text :=
  flat_map (fun c => if cls c then repl else [c]) s.

(** [re.sub] for a pattern [cls+]: a match is a maximal run of characters
    of the class.  [in_run] tells that the run the current character
    belongs to has been replaced already. *)
Fixpoint sub_class_plus (cls : ascii -> bool) (repl : text) (in_run : bool)
    (s : text) : text :=
  match s with
  | [] => []
  | c :: tl =>
      if cls c
      then (if in_run then [] else repl) ++ sub_class_plus cls repl true tl
      else c :: sub_class_plus cls repl false tl
  end.

(** cleanser.py: the class [[^\w\s,\/]]. *)
Definition unwanted (c : ascii) : bool :=
  negb (is_word c || is_space c || Ascii.eqb c "," || Ascii.eqb c "/").

Definition apply_regex (t : text) : text :=
  let t := sub_class unwanted [] t in
  let t := strip (sub_class_plus is_space [" "] false t) in
  t.

(** cleansing4.py: the class [[^\w\s,]], ``keep only word chars, spaces,
    and commas''. *)
Definition unwanted4 (c : ascii) : bool :=
  negb (is_word c || is_space c || Ascii.eqb c ",").

Definition apply_regex4 (t : text) : text :=
  let t := sub_class unwanted4 [] t in
  strip (sub_class_plus is_space [" "] false t).

(** ** [clean_notes] *)

(** A cell of a data frame column: a string, an integer, or a missing
    value. *)
Inductive cell := Str (s : text) | Int (z : Z) | NaN.

(** The text of a cell, [str(text)], which [bulk_replace] applies to what
    it is given.  For a string or an integer it is also what [astype(str)]
    writes into 'Original Notes'; a missing value is written there as
    'nan' by pandas before version 3 and is left missing from version 3
    on, and [str] of it is 'nan' either way. *)
Definition str (c : cell) : text :=
  match c with
  | Str s => s
  | Int z => txt (NilZero.string_of_int (Z.to_int z))
  | NaN => txt "nan"
  end.

(** A data frame: its columns by name, in order. *)
Abbreviation DataFrame := (list (text * list cell)).

(** [Series.apply]: the function is called on the values in order. *)
Fixpoint series_apply {A B} (f : A -> M B) (l : list A) : M (list B) :=
  match l with
  | [] => ret []
  | x :: tl =>
      let* y := f x in
      let* ys := series_apply f tl in
      ret (y :: ys)
  end.

(** The frame is updated in place: the first component is the frame after
    the call, which is also the frame of the returned pair. *)
Definition clean_notes (df : DataFrame) (replacements : dict)
    (pattern : Pattern) : DataFrame * (exn + Counter) :=
  match dict_get df (txt "Clinical Notes") with
  | None => (df, inl (KeyError (txt "Clinical Notes")))
  | Some notes =>
      let original := map str notes in
      let df := dict_set df (txt "Original Notes") (map Str original) in
      match series_apply (fun t =>
                     let* r := bulk_replace t replacements pattern in
                     ret (apply_regex r)) original ∅ with
      | (counter, inr cleaned) =>
          (dict_set df (txt "Cleaned Notes") (map Str cleaned), inr counter)
      | (_, inl e) => (df, inl e)
      end
  end.

(** ** The callers of the engine *)

(** cleaner.py, [load_input_file], a text file: [lines] is what
    [readlines] returns, and the frame is
    [{'Clinical Notes': [line.strip() for line in lines if line.strip()]}]. *)
Definition load_txt (lines : list text) : DataFrame :=
  [(txt "Clinical Notes",
    map (fun line => Str (strip line))
        (List.filter (fun line => negb (is_nil (strip line))) lines))].

(** [s.split(sep)] for a separator of one character. *)
Fixpoint split (sep : ascii) (s : text) : list text :=
  match s with
  | [] => [ [] ]
  | c :: tl =>
      if Ascii.eqb c sep then [] :: split sep tl
      else match split sep tl with
           | seg :: segs => (c :: seg) :: segs
           | [] => [ [c] ]
           end
  end.

(** app.py, [index]: [uploaded.filename.split('.')[-1].lower()] and the
    reader it selects; [None] is the answer ``Unsupported file type.''. *)
Definition upload_ext (filename : text) : text :=
  lower (List.last (split "." filename) []).

Inductive reader := read_csv | read_excel | read_txt.

Definition upload_reader (filename : text) : option reader :=
  let ext := upload_ext filename in
  if decide (ext = txt "csv") then Some read_csv
  else if decide (ext = txt "xlsx") then Some read_excel
  else if decide (ext = txt "txt") then Some read_txt
  else None.

(** ** Occurrences of a key in a text *)

Definition last_is_word (l : text) : bool :=
  match last l with
  | Some c => is_word c
  | None => false
  end.

(** [k] stands in [s] at offset [i]. *)
Definition occurs_at (k s : text) (i : nat) : bool :=
  bool_decide (take (length k) (drop i s) = k) && bool_decide (i <= length s).

(** [\b] holds in [s] at offset [i]. *)
Definition boundary_at (s : text) (i : nat) : bool :=
  xorb (last_is_word (take i s)) (starts_word (drop i s)).

(** An occurrence of [k] with [\b] at both of its ends. *)
Definition bounded_occurrence (k s : text) (i : nat) : bool :=
  occurs_at k s i && boundary_at s i && boundary_at s (i + length k).

(** An occurrence of [k] as a whole token: a non-word character or an edge
    of the text on each side. *)
Definition whole_token (k s : text) (i : nat) : bool :=
  occurs_at k s i
  && negb (last_is_word (take i s))
  && negb (starts_word (drop (i + length k) s)).

(** The bounded occurrences of the keys [ks] in [s], and the offsets at
    which [k] is a whole token of [s]: an occurrence ends inside the text,
    so the offsets up to the length are all there is to look at. *)
Definition occurrences (ks : list text) (s : text) : list (text * nat) :=
  flat_map (fun k => map (pair k)
                         (List.filter (bounded_occurrence k s)
                                      (seq 0 (S (length s))))) ks.

Definition token_offsets (k s : text) : list nat :=
  List.filter (whole_token k s) (seq 0 (S (length s))).

(** ** What the specification says

    The last entry of a sequence of entries that binds [k], if any. *)
Definition last_binding (k : text) (es : list (text * text)) : option text :=
  snd <$> last (List.filter (fun e => bool_decide (e.1 = k)) es).

(** The entries of the file as the table sees them: complete rows, both
    fields trimmed and in lower case. *)
Definition entries (rows : list row) : list (text * text) :=
  map normalise_entry (dropna rows).

(** The normalizer in the words of the specification: ``remove every
    character that is not a word character, whitespace, comma, or forward
    slash; then collapse any run of whitespace to a single space and trim
    leading/trailing whitespace''. *)
Definition allowed (c : ascii) : bool :=
  is_word c || is_space c || Ascii.eqb c "," || Ascii.eqb c "/".

Definition starts_space (s : text) : bool :=
  match s with
  | c :: _ => is_space c
  | [] => false
  end.

Definition ends_space (s : text) : bool :=
  match last s with
  | Some c => is_space c
  | None => false
  end.

(** A run of whitespace becomes one space, written where the run ends. *)
Fixpoint collapse_whitespace (s : text) : text :=
  match s with
  | [] => []
  | c :: tl =>
      if is_space c
      then if starts_space tl then collapse_whitespace tl
           else " " :: collapse_whitespace tl
      else c :: collapse_whitespace tl
  end.

Fixpoint trim_trailing (s : text) : text :=
  match s with
  | [] => []
  | c :: tl =>
      match trim_trailing tl with
      | [] => if is_space c then [] else [c]
      | r => c :: r
      end
  end.

(** The number of whitespace characters the text starts with. *)
Fixpoint leading_spaces (s : text) : nat :=
  match s with
  | c :: tl => if is_space c then S (leading_spaces tl) else 0
  | [] => 0
  end.

Definition trim_leading (s : text) : text := drop (leading_spaces s) s.

Definition normalize (t : text) : text :=
  trim_leading (trim_trailing (collapse_whitespace (List.filter allowed t))).

Definition not_slash (c : ascii) : bool := negb (Ascii.eqb c "/").

(** ** The shape of a cleaned text *)

(** The characters a cleaned text is made of. *)
Definition out_char (c : ascii) : bool :=
  is_word c || Ascii.eqb c " " || Ascii.eqb c "," || Ascii.eqb c "/".

(** Every whitespace character is a space that follows no whitespace;
    [prev_space] tells whether the text follows a whitespace character. *)
Fixpoint single_spaced (prev_space : bool) (s : text) : bool :=
  match s with
  | [] => true
  | c :: tl =>
      if is_space c
      then Ascii.eqb c " " && negb prev_space && single_spaced true tl
      else single_spaced false tl
  end.

Definition clean (s : text) : Prop :=
  forallb out_char s = true
  /\ single_spaced false s = true
  /\ starts_space s = false
  /\ ends_space s = false.

(** What a run of [clean_notes] hands to its caller: the column of
    cleaned notes and the counter, or the exception. *)
Definition outcome (r : DataFrame * (exn + Counter))
    : exn + (option (list cell) * Counter) :=
  match r.2 with
  | inr counter => inr (dict_get r.1 (txt "Cleaned Notes"), counter)
  | inl e => inl e
  end.

(** ** Inputs of the scenarios *)

Definition scenario_dict : dict :=
  [(txt "hr", txt "heart rate"); (txt "c/o", txt "complains of")].

Definition scenario_pattern : Pattern := compile_keys (keys scenario_dict).

Definition positive_dict : dict := [(txt "+ve", txt "positive")].

Definition empty_pattern : Pattern := compile_keys [].

Definition bid_rows : list row :=
  [ {| shorthand := Some (txt "bid"); full_form := Some (txt "twice daily") |};
    {| shorthand := Some (txt "bid");
       full_form := Some (txt "two times a day") |} ].

Definition one_note (t : text) : DataFrame :=
  [(txt "Clinical Notes", [Str t])].

(** ** The matches of a scan and the cleaning of one note *)

(** The matches [ms] lie in [s] from offset [i] on, in order and without
    overlap, and each is the text that stands at its offset. *)
Fixpoint coherent (s : text) (i : nat) (ms : list (nat * text)) : Prop :=
  match ms with
  | [] => True
  | (b, w) :: ms' =>
      i <= b /\ b + length w <= length s
      /\ take (length w) (drop b s) = w
      /\ coherent s (b + length w) ms'
  end.

(** How many of the matches are the word [k]. *)
Definition times (k : text) (ms : list (nat * text)) : nat :=
  length (List.filter (fun m => bool_decide (m.2 = k)) ms).

(** What [clean_notes] applies to a note,
    [apply_regex(bulk_replace(text, replacements, pattern, counter))],
    with a counter of its own. *)
Definition clean_text (replacements : dict) (pattern : Pattern) (t : text)
    : exn + text :=
  match (bulk_replace t replacements pattern ∅).2 with
  | inr r => inr (apply_regex r)
  | inl e => inl e
  end.

(** The texts of [l] that are not in [seen], each at its first
    occurrence. *)
Fixpoint first_occurrences (seen l : list text) : list text :=
  match l with
  | [] => []
  | x :: tl =>
      if decide (x ∈ seen) then first_occurrences seen tl
      else x :: first_occurrences (seen ++ [x]) tl
  end.

(** The characters of a text that are not whitespace. *)
Definition visible (s : text) : text :=
  List.filter (fun ch => negb (is_space ch)) s.

(** The notes cleaned one after the other, each on its own; the first
    exception ends the run. *)
Fixpoint clean_all (replacements : dict) (pattern : Pattern) (l : list text)
    : exn + list text :=
  match l with
  | [] => inr []
  | t :: tl =>
      match clean_text replacements pattern t with
      | inl e => inl e
      | inr x =>
          match clean_all replacements pattern tl with
          | inl e => inl e
          | inr xs => inr (x :: xs)
          end
      end
  end.

(** A counter as the reports read it: every word it holds is a key of the
    dictionary and has been counted at least once. *)
Definition reportable (d : dict) (c : Counter) : Prop :=
  forall k n, c !! k = Some n -> (1 <= n)%Z /\ In k (keys d).

(** * Properties *)

(** ** The scan, position by position *)

(** Case analysis on every [decide] of the goal. *)
Ltac split_decide :=
  repeat match goal with
         | |- context [decide ?P] => destruct (decide P)
         end.

Lemma strip_prefix_spec (a rest : text) :
  strip_prefix a rest =
  if decide (take (length a) rest = a) then Some (drop (length a) rest)
  else None.
Proof.
  revert rest; induction a as [|x a IH]; intros rest; simpl.
  - by rewrite drop_0.
  - destruct rest as [|y rest]; simpl.
    + split_decide; congruence.
    + rewrite IH. split_decide; congruence.
Qed.

Lemma last_is_word_snoc (l : text) (c : ascii) :
  last_is_word (l ++ [c]) = is_word c.
Proof. unfold last_is_word. by rewrite last_snoc. Qed.

Lemma ends_word_app (pre a : text) :
  ends_word (last_is_word pre) a = last_is_word (pre ++ a).
Proof.
  revert pre; induction a as [|c a IH]; intros pre; simpl.
  - by rewrite app_nil_r.
  - rewrite <- (last_is_word_snoc pre c), IH.
    by rewrite <- app_assoc.
Qed.

Lemma boundary_at_app (pre rest : text) :
  boundary_at (pre ++ rest) (length pre)
  = at_boundary (last_is_word pre) rest.
Proof.
  unfold boundary_at, at_boundary.
  by rewrite take_app_length, drop_app_length.
Qed.

Lemma bounded_occurrence_app (pre rest k : text) :
  bounded_occurrence k (pre ++ rest) (length pre)
  = bool_decide (take (length k) rest = k)
    && at_boundary (last_is_word pre) rest
    && at_boundary (last_is_word (pre ++ k)) (drop (length k) rest).
Proof.
  unfold bounded_occurrence, occurs_at.
  rewrite boundary_at_app, drop_app_length, length_app.
  rewrite (bool_decide_eq_true_2 (length pre <= _)) by lia.
  rewrite andb_true_r.
  destruct (bool_decide_reflect (take (length k) rest = k)) as [Hk|Hk];
    [|done].
  simpl. f_equal.
  unfold boundary_at, at_boundary.
  by rewrite take_app_add, drop_app_add, Hk.
Qed.

Lemma match_alt_spec (pre rest k : text) (adv : bool) :
  match_alt (last_is_word pre) rest adv k
  = bounded_occurrence k (pre ++ rest) (length pre) && negb (adv && is_nil k).
Proof.
  rewrite bounded_occurrence_app.
  unfold match_alt. rewrite strip_prefix_spec, ends_word_app.
  destruct (decide _) as [Hk|Hk].
  - rewrite bool_decide_eq_true_2 by done. simpl.
    by rewrite andb_assoc.
  - rewrite bool_decide_eq_false_2 by done. simpl.
    by rewrite andb_false_r.
Qed.

Section scan.

Context (p : Pattern).

Lemma match_here_Some (pre rest a : text) (adv : bool) :
  match_here p (last_is_word pre) rest adv = Some a ->
  In a (alts p)
  /\ bounded_occurrence a (pre ++ rest) (length pre) = true
  /\ (adv = true -> a <> []).
Proof.
  unfold match_here. intros H. apply find_some in H as [Hin Hm].
  rewrite match_alt_spec in Hm.
  apply andb_true_iff in Hm as [Hocc Hadv].
  split; [done|]. split; [done|].
  intros -> ->. done.
Qed.

Lemma match_here_None (pre rest a : text) (adv : bool) :
  match_here p (last_is_word pre) rest adv = None ->
  In a (alts p) ->
  bounded_occurrence a (pre ++ rest) (length pre) && negb (adv && is_nil a)
  = false.
Proof.
  unfold match_here. intros H Hin.
  rewrite <- match_alt_spec.
  by eapply find_none in H.
Qed.

Lemma matches_at_sound (pre rest a : text) :
  In a (matches_at p (last_is_word pre) rest) ->
  In a (alts p) /\ bounded_occurrence a (pre ++ rest) (length pre) = true.
Proof.
  unfold matches_at.
  destruct (match_here p _ rest false) as [a0|] eqn:H0; [|by inversion 1].
  apply match_here_Some in H0 as (Hin0 & Hocc0 & _).
  destruct (is_nil a0).
  - destruct (match_here p _ rest true) as [a1|] eqn:H1.
    + apply match_here_Some in H1 as (Hin1 & Hocc1 & _).
      intros [<-|[<-|[]]]; done.
    + intros [<-|[]]; done.
  - intros [<-|[]]; done.
Qed.

(** Every match reported by the scan is an alternative of the pattern
    standing in the text with [\b] at both ends, at or after the position
    the scan was resumed from. *)
Lemma finditer_from_sound (rest pre : text) (skip b : nat)
    (w : text) :
  In (b, w) (finditer_from p (last_is_word pre) (length pre) skip rest) ->
  In w (alts p)
  /\ bounded_occurrence w (pre ++ rest) b = true
  /\ length pre + skip <= b.
Proof.
  revert pre skip; induction rest as [|c tl IH]; intros pre skip.
  - destruct skip; simpl; [|by inversion 1].
    intros (a & [= <- <-] & Ha)%in_map_iff.
    apply matches_at_sound in Ha as [??]. split_and!; [done..|lia].
  - assert (Hstep : forall k,
      In (b, w) (finditer_from p (is_word c) (S (length pre)) k tl) ->
      In w (alts p) /\ bounded_occurrence w (pre ++ c :: tl) b = true
      /\ S (length pre) + k <= b).
    { intros k Hk. specialize (IH (pre ++ [c]) k).
      rewrite last_is_word_snoc, length_app, Nat.add_1_r in IH.
      rewrite <- app_assoc in IH. by apply IH. }
    destruct skip; simpl.
    + intros [(a & [= <- <-] & Ha)%in_map_iff | Hk]%in_app_iff.
      * apply matches_at_sound in Ha as [??]. split_and!; [done..|lia].
      * apply Hstep in Hk as (? & ? & ?). split_and!; [done..|lia].
    + intros Hk. apply Hstep in Hk as (? & ? & ?). split_and!; [done..|lia].
Qed.

Lemma finditer_sound (s : text) (b : nat) (w : text) :
  In (b, w) (finditer p s) ->
  In w (alts p) /\ bounded_occurrence w s b = true.
Proof.
  intros H. apply (finditer_from_sound s [] 0) in H as (? & ? & _). done.
Qed.

(** Without an occurrence the scan reports nothing. *)
Lemma finditer_from_nil (rest pre : text) (skip : nat) :
  (forall a i, In a (alts p) -> length pre + skip <= i ->
               bounded_occurrence a (pre ++ rest) i = false) ->
  finditer_from p (last_is_word pre) (length pre) skip rest = [].
Proof.
  intros Hno.
  destruct (finditer_from p _ _ skip rest) as [|[b w] l] eqn:E; [done|].
  assert (In (b, w) (finditer_from p (last_is_word pre) (length pre) skip rest))
    as H by (rewrite E; by left).
  apply finditer_from_sound in H as (Hin & Hocc & Hle).
  by rewrite Hno in Hocc.
Qed.

Lemma matches_at_nil (pre rest : text) :
  (forall a, In a (alts p) ->
             bounded_occurrence a (pre ++ rest) (length pre) = false) ->
  matches_at p (last_is_word pre) rest = [].
Proof.
  intros Hno. unfold matches_at.
  destruct (match_here p _ rest false) as [a0|] eqn:H0; [|done].
  apply match_here_Some in H0 as (Hin0 & Hocc0 & _).
  by rewrite Hno in Hocc0.
Qed.

Lemma matches_at_single (pre rest k : text) :
  (forall a, In a (alts p) ->
             bounded_occurrence a (pre ++ rest) (length pre) = true -> a = k) ->
  In k (alts p) ->
  bounded_occurrence k (pre ++ rest) (length pre) = true ->
  matches_at p (last_is_word pre) rest = [k].
Proof.
  intros Huniq Hin Hocc. unfold matches_at.
  destruct (match_here p _ rest false) as [a0|] eqn:H0.
  - apply match_here_Some in H0 as (Hin0 & Hocc0 & _).
    rewrite (Huniq a0 Hin0 Hocc0).
    destruct (is_nil k) eqn:Hk; [|done].
    destruct (match_here p _ rest true) as [a1|] eqn:H1; [|done].
    apply match_here_Some in H1 as (Hin1 & Hocc1 & Hne).
    rewrite (Huniq a1 Hin1 Hocc1) in Hne.
    destruct k; [by destruct Hne|done].
  - apply (match_here_None _ _ k) in H0; [|done].
    by rewrite Hocc in H0.
Qed.

(** When one alternative has one bounded occurrence and there is no other
    in the text, the scan reports exactly that one. *)
Lemma finditer_from_single (k : text) (q : nat)
    (rest pre : text) :
  (forall a i, In a (alts p) -> length pre <= i ->
               bounded_occurrence a (pre ++ rest) i = true -> a = k /\ i = q) ->
  In k (alts p) ->
  bounded_occurrence k (pre ++ rest) q = true ->
  length pre <= q ->
  finditer_from p (last_is_word pre) (length pre) 0 rest = [(q, k)].
Proof.
  revert pre; induction rest as [|c tl IH]; intros pre Huniq Hin Hocc Hle.
  - assert (q = length pre) as ->.
    { unfold bounded_occurrence, occurs_at in Hocc.
      rewrite !andb_true_iff, !bool_decide_eq_true, app_nil_r in Hocc. lia. }
    simpl. rewrite (matches_at_single pre [] k); [done| |done..].
    intros a Ha Hoa. by apply (Huniq a (length pre)).
  - simpl. destruct (decide (q = length pre)) as [->|Hne].
    + rewrite (matches_at_single pre (c :: tl) k); [| |done..].
      2:{ intros a Ha Hoa. by apply (Huniq a (length pre)). }
      simpl. rewrite app_nil_r.
      pose proof (finditer_from_nil tl (pre ++ [c]) (pred (length k))) as Hn.
      rewrite last_is_word_snoc, length_app, Nat.add_1_r in Hn.
      rewrite <- app_assoc in Hn. rewrite Hn; [done|].
      intros a i Ha Hi.
      destruct (bounded_occurrence a (pre ++ [c] ++ tl) i) eqn:E; [|done].
      apply Huniq in E as [_ ->]; [lia|done|lia].
    + rewrite (matches_at_nil pre (c :: tl)).
      2:{ intros a Ha.
          destruct (bounded_occurrence a (pre ++ c :: tl) (length pre)) eqn:E;
            [|done].
          apply Huniq in E as [_ ?]; [lia|done|lia]. }
      simpl.
      specialize (IH (pre ++ [c])).
      rewrite last_is_word_snoc, length_app, Nat.add_1_r in IH.
      rewrite <- app_assoc in IH. apply IH; [|done|done|lia].
      intros a i Ha Hi. apply Huniq; [done|lia].
Qed.

End scan.

(** ** Lower case *)

Lemma lower_char_idem (c : ascii) : lower_char (lower_char c) = lower_char c.
Proof. destruct c as [[] [] [] [] [] [] [] []]; reflexivity. Qed.

Lemma lower_char_not_upper (c : ascii) : is_ascii_upper (lower_char c) = false.
Proof. destruct c as [[] [] [] [] [] [] [] []]; reflexivity. Qed.

Lemma lower_idem (s : text) : lower (lower s) = lower s.
Proof.
  unfold lower. rewrite map_map. apply map_ext. apply lower_char_idem.
Qed.

(** A text that stands in a lower-cased text is in lower case. *)
Lemma occurs_at_lower (k t : text) (i : nat) :
  occurs_at k (lower t) i = true -> lower k = k.
Proof.
  unfold occurs_at. rewrite andb_true_iff, bool_decide_eq_true.
  intros [<- _]. unfold lower.
  by rewrite skipn_map, firstn_map, map_map, (map_ext _ _ lower_char_idem).
Qed.

Lemma bounded_occurrence_lower (k t : text) (i : nat) :
  bounded_occurrence k (lower t) i = true -> lower k = k.
Proof.
  unfold bounded_occurrence. rewrite !andb_true_iff.
  intros [[H _] _]. by eapply occurs_at_lower.
Qed.

(** ** Running [replace_match] over the matches *)

Lemma replace_match_run (d : dict) (w : text) (c : Counter) :
  replace_match d w c
  = (<[lower w := (count c (lower w) + 1)%Z]> c,
     match dict_get d (lower w) with
     | Some full => inr full
     | None => inl (KeyError (lower w))
     end).
Proof.
  unfold replace_match, bind, incr. by destruct (dict_get d (lower w)).
Qed.


Lemma alts_compile_keys (ks : list text) :
  ks <> [] -> alts (compile_keys ks) = ks.
Proof. by destruct ks. Qed.

Lemma dict_get_Some_keys {V} (d : list (text * V)) (k : text) (v : V) :
  dict_get d k = Some v -> In k (map fst d).
Proof.
  induction d as [|[k' v'] d IH]; simpl; [done|].
  destruct (decide (k' = k)); [by left|]. intros ?; right; by apply IH.
Qed.

Lemma dict_get_keys_Some {V} (d : list (text * V)) (k : text) :
  In k (map fst d) -> exists v, dict_get d k = Some v /\ In (k, v) d.
Proof.
  induction d as [|[k' v'] d IH]; simpl; [done|].
  destruct (decide (k' = k)) as [->|Hne].
  - intros _. exists v'. split; [done|by left].
  - intros [?|Hin]; [done|].
    destruct (IH Hin) as (v & ? & ?). exists v. split; [done|by right].
Qed.

(** For a key that begins and ends with a word character, an occurrence
    with [\b] at both ends is an occurrence as a whole token. *)
Lemma whole_token_bounded (k s : text) (i : nat) :
  starts_word k = true -> last_is_word k = true ->
  whole_token k s i = bounded_occurrence k s i.
Proof.
  intros Hs Hl. unfold whole_token, bounded_occurrence.
  destruct (occurs_at k s i) eqn:Ho; [simpl|done].
  unfold occurs_at in Ho.
  apply andb_true_iff in Ho as [Hk%bool_decide_eq_true _].
  assert (k <> []) as Hne by (by destruct k).
  unfold boundary_at. f_equal.
  - assert (starts_word (drop i s) = true) as ->; [|by rewrite xorb_true_r].
    rewrite <- (take_drop (length k) (drop i s)), Hk.
    by destruct k.
  - assert (last_is_word (take (i + length k) s) = true) as ->; [|done].
    rewrite <- take_take_drop, Hk. unfold last_is_word in *.
    rewrite last_app. by destruct (last k).
Qed.

(** ** The claims about [bulk_replace] *)

(** C1. With the dictionary hr -> heart rate, c/o -> complains of, the
    text "Pt c/o elevated HR today!" is replaced into "pt complains of
    elevated heart rate today!", the counter ends at c/o: 1, hr: 1, and
    [apply_regex] of the replaced text is "pt complains of elevated heart
    rate today". *)
Theorem scenario_heart_rate :
  bulk_replace (txt "Pt c/o elevated HR today!") scenario_dict
    scenario_pattern ∅
  = ({[ txt "c/o" := 1%Z; txt "hr" := 1%Z ]},
     inr (txt "pt complains of elevated heart rate today!"))
  /\ apply_regex (txt "pt complains of elevated heart rate today!")
     = txt "pt complains of elevated heart rate today".
Proof. split; vm_compute; reflexivity. Qed.

(** C2, as amended.  When a key [k] of the dictionary has exactly one
    occurrence with [\b] at both ends in the lower-cased text and no other
    key has such an occurrence, [bulk_replace] puts the full form of [k] in
    the place of that occurrence, adds 1 to [counter[k]] and leaves every
    other entry of the counter as it was. *)
Theorem bulk_replace_single (d : dict) (k full t : text) (q : nat)
    (c : Counter) :
  dict_get d k = Some full ->
  bounded_occurrence k (lower t) q = true ->
  (forall a i, In a (keys d) -> bounded_occurrence a (lower t) i = true ->
               a = k /\ i = q) ->
  bulk_replace t d (compile_keys (keys d)) c
  = (<[k := (count c k + 1)%Z]> c,
     inr (take q (lower t) ++ full ++ drop (q + length k) (lower t))).
Proof.
  intros Hget Hocc Huniq.
  assert (In k (keys d)) as Hin by (by eapply dict_get_Some_keys).
  assert (keys d <> []) as Hne by (by destruct (keys d)).
  unfold bulk_replace, sub, finditer.
  rewrite (finditer_from_single _ k q (lower t) []); simpl.
  - unfold bind at 1. rewrite replace_match_run.
    rewrite (bounded_occurrence_lower k t q Hocc), Hget. simpl.
    by rewrite Nat.sub_0_r.
  - rewrite alts_compile_keys by done. intros a i Ha _. by apply Huniq.
  - by rewrite alts_compile_keys.
  - done.
  - lia.
Qed.


Example overlapping_keys :
  bulk_replace (txt "Pt C/O pain") [(txt "o", txt "oxygen");
                                    (txt "c/o", txt "complains of")]
    (compile_keys [txt "o"; txt "c/o"]) ∅
  = ({[ txt "c/o" := 1%Z ]}, inr (txt "pt complains of pain")).
Proof. vm_compute; reflexivity. Qed.

(** C6, as amended.  For a dictionary that is not empty and a text whose
    lower-cased form holds no occurrence of a key with [\b] at both ends,
    [bulk_replace] returns the lower-cased text and leaves the counter as
    it was. *)
Theorem bulk_replace_no_match (d : dict) (t : text) (c : Counter) :
  d <> [] ->
  (forall k i, In k (keys d) -> bounded_occurrence k (lower t) i = false) ->
  bulk_replace t d (compile_keys (keys d)) c = (c, inr (lower t)).
Proof.
  intros Hne Hno.
  unfold bulk_replace, sub, finditer.
  rewrite (finditer_from_nil _ (lower t) [] 0); [done|].
  rewrite alts_compile_keys by (by destruct d).
  intros a i Ha _. by apply Hno.
Qed.

(** ** Occurrences by enumeration *)

Lemma occurs_at_le (k s : text) (i : nat) :
  occurs_at k s i = true -> i <= length s.
Proof.
  unfold occurs_at. rewrite andb_true_iff, !bool_decide_eq_true. tauto.
Qed.

Lemma occurrences_complete (ks : list text) (s k : text) (i : nat) :
  In k ks -> bounded_occurrence k s i = true -> In (k, i) (occurrences ks s).
Proof.
  intros Hk Hocc. unfold occurrences.
  apply in_flat_map. exists k. split; [done|].
  apply in_map, filter_In. split; [|done].
  apply in_seq. split; [lia|].
  unfold bounded_occurrence in Hocc.
  apply andb_true_iff in Hocc as [[Ho _]%andb_true_iff _].
  apply occurs_at_le in Ho. lia.
Qed.

Lemma token_offsets_complete (k s : text) (i : nat) :
  whole_token k s i = true -> In i (token_offsets k s).
Proof.
  intros Htok. unfold token_offsets.
  apply filter_In. split; [|done].
  apply in_seq. split; [lia|].
  unfold whole_token in Htok.
  apply andb_true_iff in Htok as [[Ho _]%andb_true_iff _].
  apply occurs_at_le in Ho. lia.
Qed.

Lemma bulk_replace_single_witness :
  bulk_replace (txt "HR up") scenario_dict scenario_pattern ∅
  = ({[ txt "hr" := 1%Z ]}, inr (txt "heart rate up")).
Proof.
  etrans.
  - apply (bulk_replace_single scenario_dict (txt "hr") (txt "heart rate")
             (txt "HR up") 0 ∅).
    + reflexivity.
    + vm_compute; reflexivity.
    + intros a i Ha Hocc.
      pose proof (occurrences_complete _ _ _ _ Ha Hocc) as Hin.
      vm_compute in Hin. destruct Hin as [[= <- <-]|[]]. split; reflexivity.
  - vm_compute; reflexivity.
Defined.

(** C2, as stated, fails: in "pt +ve" the key "+ve" stands once, between a
    space and the end of the text, and it is neither replaced nor
    counted. *)
Lemma whole_token_not_replaced :
  dict_get positive_dict (txt "+ve") = Some (txt "positive")
  /\ whole_token (txt "+ve") (lower (txt "pt +ve")) 3 = true
  /\ (forall i, whole_token (txt "+ve") (lower (txt "pt +ve")) i = true ->
                i = 3)
  /\ bulk_replace (txt "pt +ve") positive_dict
       (compile_keys (keys positive_dict)) ∅
     = (∅, inr (txt "pt +ve"))
  /\ bulk_replace (txt "pt +ve") positive_dict
       (compile_keys (keys positive_dict)) ∅
     <> ({[ txt "+ve" := 1%Z ]}, inr (txt "pt positive")).
Proof.
  split_and!; try (vm_compute; reflexivity).
  - intros i Hi. apply token_offsets_complete in Hi.
    vm_compute in Hi. by destruct Hi as [<-|[]].
  - vm_compute. intros [=].
Qed.



Lemma bulk_replace_no_match_witness :
  bulk_replace (txt "no shorthand here") scenario_dict
    (compile_keys (keys scenario_dict)) ∅
  = (∅, inr (lower (txt "no shorthand here"))).
Proof.
  apply (bulk_replace_no_match scenario_dict (txt "no shorthand here") ∅).
  - discriminate.
  - intros k i Hk.
    destruct (bounded_occurrence k (lower (txt "no shorthand here")) i)
      eqn:E; [|done].
    apply (occurrences_complete _ _ _ _ Hk) in E.
    vm_compute in E. destruct E.
Defined.

(** C6, as stated, fails: "+ve" is no whole token of "a+ve", which has a
    word character before it, and it is replaced and counted all the
    same. *)
Lemma not_whole_token_replaced :
  (forall k i, In k (keys positive_dict) ->
               whole_token k (lower (txt "a+ve")) i = false)
  /\ bulk_replace (txt "a+ve") positive_dict
       (compile_keys (keys positive_dict)) ∅
     = ({[ txt "+ve" := 1%Z ]}, inr (txt "apositive"))
  /\ bulk_replace (txt "a+ve") positive_dict
       (compile_keys (keys positive_dict)) ∅
     <> (∅, inr (lower (txt "a+ve"))).
Proof.
  split_and!.
  - intros k i [<-|[]].
    destruct (whole_token (txt "+ve") (lower (txt "a+ve")) i) eqn:E; [|done].
    apply token_offsets_complete in E. vm_compute in E. destruct E.
  - vm_compute; reflexivity.
  - vm_compute. intros [=].
Qed.

(** C4.  With no entry at all the pattern is [\b()\b], which matches the
    empty string at every word boundary; [replace_match] counts the empty
    word and then fails to find it in the empty dictionary, so
    [bulk_replace] and [clean_notes] raise [KeyError('')] on "no shorthand
    here" instead of handing the text through. *)
Theorem empty_dictionary_raises :
  load_replacements [] = ([], empty_pattern)
  /\ alts empty_pattern = [ [] ]
  /\ bulk_replace (txt "no shorthand here") [] empty_pattern ∅
     = ({[ [] := 1%Z ]}, inl (KeyError []))
  /\ (clean_notes (one_note (txt "no shorthand here")) [] empty_pattern).2
     = inl (KeyError []).
Proof. split_and!; vm_compute; reflexivity. Qed.

(** ** The table of [load_replacements] *)

Lemma dict_get_set {V} (d : list (text * V)) (k k' : text) (v : V) :
  dict_get (dict_set d k v) k'
  = if decide (k = k') then Some v else dict_get d k'.
Proof.
  induction d as [|[k0 v0] d IH]; simpl.
  - split_decide; congruence.
  - destruct (decide (k0 = k)) as [->|Hne]; simpl.
    + split_decide; congruence.
    + rewrite IH. split_decide; congruence.
Qed.

Lemma keys_dict_set {V} (d : list (text * V)) (k : text) (v : V) :
  map fst (dict_set d k v)
  = if decide (k ∈ map fst d) then map fst d else map fst d ++ [k].
Proof.
  induction d as [|[k0 v0] d IH]; simpl.
  - done.
  - destruct (decide (k0 = k)) as [->|Hne]; simpl.
    + destruct (decide (k ∈ k :: map fst d)) as [|Hn]; [done|].
      destruct Hn. apply elem_of_cons. by left.
    + rewrite IH.
      destruct (decide (k ∈ map fst d)) as [Hin|Hin];
        destruct (decide (k ∈ k0 :: map fst d)) as [Hin'|Hin']; try done.
      * destruct Hin'. apply elem_of_cons. by right.
      * by apply elem_of_cons in Hin' as [?|?].
Qed.

Lemma NoDup_keys_dict_set {V} (d : list (text * V)) (k : text) (v : V) :
  NoDup (map fst d) -> NoDup (map fst (dict_set d k v)).
Proof.
  intros Hd. rewrite keys_dict_set. case_decide as Hn; [done|].
  apply NoDup_app. split_and!; [done| |apply NoDup_singleton].
  by intros x Hx ->%list_elem_of_singleton.
Qed.

Lemma last_binding_cons (k : text) (e : text * text) (es : list (text * text)) :
  last_binding k (e :: es)
  = match last_binding k es with
    | Some v => Some v
    | None => if decide (e.1 = k) then Some e.2 else None
    end.
Proof.
  unfold last_binding. simpl.
  destruct (bool_decide_reflect (e.1 = k)) as [He|He].
  - rewrite last_cons. rewrite decide_True by done.
    by destruct (last (List.filter _ es)).
  - rewrite decide_False by done. by destruct (last (List.filter _ es)).
Qed.

Lemma dict_get_fold_set (es : list (text * text)) (d : dict) (k : text) :
  dict_get (fold_left (fun d e => dict_set d e.1 e.2) es d) k
  = match last_binding k es with
    | Some v => Some v
    | None => dict_get d k
    end.
Proof.
  revert d; induction es as [|e es IH]; intros d; [done|].
  simpl. rewrite IH, last_binding_cons, dict_get_set.
  destruct (last_binding k es); [done|]. by case_decide.
Qed.

Lemma NoDup_keys_fold_set (es : list (text * text)) (d : dict) :
  NoDup (keys d) ->
  NoDup (keys (fold_left (fun d e => dict_set d e.1 e.2) es d)).
Proof.
  revert d; induction es as [|e es IH]; intros d Hd; [done|].
  simpl. apply IH. by apply NoDup_keys_dict_set.
Qed.

Lemma load_replacements_table (rows : list row) :
  (load_replacements rows).1
  = fold_left (fun d e => dict_set d e.1 e.2) (entries rows) [].
Proof.
  unfold load_replacements, entries. simpl.
  generalize (@nil (text * text)).
  induction (dropna rows) as [|e es IH]; intros d; [done|].
  simpl. apply IH.
Qed.

(** C5.  The table of [load_replacements] has one mapping per key, and a
    key is mapped to the full form of the last entry that binds it; with
    the two entries for "bid" the table maps "bid" to "two times a day". *)
Theorem load_replacements_last_wins :
  (forall rows, NoDup (keys (load_replacements rows).1))
  /\ (forall rows k,
        dict_get (load_replacements rows).1 k = last_binding k (entries rows))
  /\ (load_replacements bid_rows).1 = [(txt "bid", txt "two times a day")].
Proof.
  split_and!.
  - intros rows. rewrite load_replacements_table.
    apply NoDup_keys_fold_set. constructor.
  - intros rows k. rewrite load_replacements_table, dict_get_fold_set.
    by destruct (last_binding k (entries rows)).
  - vm_compute; reflexivity.
Qed.

(** ** The normalizer *)

Lemma sub_class_nil (cls : ascii -> bool) (s : text) :
  sub_class cls [] s = List.filter (fun c => negb (cls c)) s.
Proof.
  unfold sub_class. induction s as [|c s IH]; simpl; [done|].
  rewrite IH. by destruct (cls c).
Qed.

Lemma lstrip_length (s : text) : length (lstrip s) <= length s.
Proof.
  induction s as [|c s IH]; simpl; [done|].
  destruct (is_space c); simpl; lia.
Qed.

Lemma sub_class_plus_in_run (s : text) :
  sub_class_plus is_space [" "] true s
  = sub_class_plus is_space [" "] false (lstrip s).
Proof.
  induction s as [|c s IH]; simpl; [done|].
  destruct (is_space c) eqn:Hc; simpl; [done|]. by rewrite Hc.
Qed.

Lemma collapse_whitespace_space (c : ascii) (tl : text) :
  is_space c = true ->
  collapse_whitespace (c :: tl) = " " :: collapse_whitespace (lstrip tl).
Proof.
  revert c; induction tl as [|c' tl IH]; intros c Hc; simpl; rewrite Hc;
    [done|].
  destruct (is_space c') eqn:Hc'; [|simpl; by rewrite Hc'].
  rewrite <- (IH c' Hc'). simpl. by rewrite Hc'.
Qed.

Lemma sub_class_plus_collapse (s : text) :
  sub_class_plus is_space [" "] false s = collapse_whitespace s.
Proof.
  remember (length s) as n eqn:Hn.
  assert (length s <= n) as Hle by lia. clear Hn.
  revert s Hle; induction n as [|n IH]; intros [|c tl] Hle; simpl in *;
    try done; try lia.
  destruct (is_space c) eqn:Hc.
  - rewrite sub_class_plus_in_run, IH
      by (pose proof (lstrip_length tl); lia).
    pose proof (collapse_whitespace_space c tl Hc) as H. simpl in H.
    rewrite Hc in H. by rewrite H.
  - rewrite IH by lia. done.
Qed.

Lemma lstrip_snoc (l : text) (c : ascii) :
  lstrip (l ++ [c])
  = match lstrip l with
    | [] => if is_space c then [] else [c]
    | r => r ++ [c]
    end.
Proof.
  induction l as [|x l IH]; simpl; [done|].
  by destruct (is_space x).
Qed.

Lemma rstrip_trim_trailing (s : text) : rstrip s = trim_trailing s.
Proof.
  unfold rstrip. induction s as [|c tl IH]; simpl; [done|].
  rewrite lstrip_snoc, <- IH.
  destruct (lstrip (rev tl)) as [|x r]; simpl.
  - by destruct (is_space c).
  - rewrite rev_app_distr. simpl.
    destruct (rev r ++ [x]) eqn:E; [by destruct (rev r)|done].
Qed.

Lemma lstrip_trim_leading (s : text) : lstrip s = trim_leading s.
Proof.
  unfold trim_leading. induction s as [|c tl IH]; simpl; [done|].
  by destruct (is_space c).
Qed.

Lemma trim_trailing_lstrip (s : text) :
  trim_trailing (lstrip s) = lstrip (trim_trailing s).
Proof.
  induction s as [|c tl IH]; simpl; [done|].
  destruct (is_space c) eqn:Hc.
  - rewrite IH. destruct (trim_trailing tl); simpl; [done|]. by rewrite Hc.
  - simpl. destruct (trim_trailing tl); simpl; by rewrite Hc.
Qed.

Lemma strip_trim (s : text) : strip s = trim_leading (trim_trailing s).
Proof.
  unfold strip.
  by rewrite rstrip_trim_trailing, trim_trailing_lstrip, lstrip_trim_leading.
Qed.

Lemma unwanted_allowed (c : ascii) : negb (unwanted c) = allowed c.
Proof. unfold unwanted, allowed. by rewrite negb_involutive. Qed.

Lemma unwanted4_allowed (c : ascii) :
  negb (unwanted4 c) = not_slash c && allowed c.
Proof.
  unfold unwanted4, allowed, not_slash. rewrite negb_involutive.
  destruct (Ascii.eqb_spec c "/") as [->|Hne]; [done|].
  simpl. by rewrite orb_false_r.
Qed.

Lemma filter_filter_andb {A} (f g : A -> bool) (l : list A) :
  List.filter g (List.filter f l) = List.filter (fun x => f x && g x) l.
Proof.
  induction l as [|x l IH]; simpl; [done|].
  destruct (f x); simpl; [|done]. destruct (g x); by rewrite IH.
Qed.

Lemma apply_regex_normalize (t : text) : apply_regex t = normalize t.
Proof.
  unfold apply_regex, normalize.
  rewrite sub_class_nil, sub_class_plus_collapse, strip_trim.
  by rewrite (filter_ext _ _ unwanted_allowed).
Qed.

Lemma apply_regex4_no_slash (t : text) :
  apply_regex4 t = apply_regex (List.filter not_slash t).
Proof.
  unfold apply_regex4, apply_regex.
  rewrite !sub_class_nil, filter_filter_andb.
  do 2 f_equal. apply filter_ext. intros c.
  by rewrite unwanted4_allowed, unwanted_allowed.
Qed.

(** C9, as amended.  [apply_regex] of cleanser.py is the normalizer of the
    specification; the copy in cleansing4.py removes the forward slashes
    as well, so it returns what cleanser.py's returns on the text without
    its slashes, and the two agree on every text that holds no forward
    slash. *)
Theorem apply_regex_copies :
  (forall t, apply_regex t = normalize t)
  /\ (forall t, apply_regex4 t = apply_regex (List.filter not_slash t))
  /\ (forall t, ~ In "/" t -> apply_regex4 t = apply_regex t).
Proof.
  split_and!; [apply apply_regex_normalize|apply apply_regex4_no_slash|].
  intros t Hno. rewrite apply_regex4_no_slash. f_equal.
  induction t as [|c t IH]; simpl; [done|].
  unfold not_slash at 1.
  destruct (Ascii.eqb_spec c "/") as [->|Hne]; simpl.
  - destruct Hno. by left.
  - rewrite IH; [done|]. intros ?. apply Hno. by right.
Qed.

Lemma apply_regex_copies_witness :
  ~ In "/" (txt "Pt  ok!")
  /\ apply_regex4 (txt "Pt  ok!") = apply_regex (txt "Pt  ok!").
Proof.
  assert (~ In "/" (txt "Pt  ok!")) as H.
  { vm_compute. intros H. repeat destruct H as [[=]|H]. done. }
  split; [done|].
  destruct apply_regex_copies as (_ & _ & Hagree). by apply Hagree.
Defined.

(** C9, as stated, fails: cleansing4.py's copy drops the slash of "c/o",
    cleanser.py's keeps it. *)
Lemma apply_regex_copies_differ :
  apply_regex4 (txt "c/o") = txt "co"
  /\ apply_regex (txt "c/o") = txt "c/o"
  /\ apply_regex4 (txt "c/o") <> apply_regex (txt "c/o").
Proof. split_and!; vm_compute; [reflexivity..|intros [=]]. Qed.

(** ** Cleaned texts *)

Lemma single_spaced_weaken (b : bool) (s : text) :
  single_spaced b s = true -> single_spaced false s = true.
Proof.
  destruct s as [|c tl]; simpl; [done|].
  destruct (is_space c); [|done].
  rewrite !andb_true_iff. intros [[-> _] ->]. done.
Qed.

Lemma single_spaced_collapse (b : bool) (s : text) :
  single_spaced b (sub_class_plus is_space [" "] b s) = true.
Proof.
  revert b; induction s as [|c tl IH]; intros b; simpl; [done|].
  destruct (is_space c) eqn:Hc.
  - destruct b; simpl; [apply IH|]. by rewrite IH.
  - simpl. rewrite Hc. apply IH.
Qed.

Lemma single_spaced_fixed (b : bool) (s : text) :
  single_spaced b s = true -> sub_class_plus is_space [" "] b s = s.
Proof.
  revert b; induction s as [|c tl IH]; intros b; simpl; [done|].
  destruct (is_space c).
  - rewrite !andb_true_iff.
    intros [[->%Ascii.eqb_eq ->%negb_true_iff] Htl]. simpl.
    by rewrite IH.
  - intros Htl. by rewrite IH.
Qed.

Lemma single_spaced_lstrip (b : bool) (s : text) :
  single_spaced b s = true -> single_spaced false (lstrip s) = true.
Proof.
  revert b; induction s as [|c tl IH]; intros b; simpl; [done|].
  destruct (is_space c) eqn:Hc.
  - rewrite !andb_true_iff. intros [_ Htl]. by eapply IH.
  - simpl. by rewrite Hc.
Qed.

Lemma single_spaced_trim_trailing (b : bool) (s : text) :
  single_spaced b s = true -> single_spaced b (trim_trailing s) = true.
Proof.
  revert b; induction s as [|c tl IH]; intros b; simpl; [done|].
  destruct (is_space c) eqn:Hc.
  - rewrite !andb_true_iff. intros [[Hsp Hb] Htl%IH].
    destruct (trim_trailing tl) as [|x r]; [done|].
    simpl in *. rewrite Hc, Hsp, Hb. done.
  - intros Htl%IH.
    destruct (trim_trailing tl) as [|x r]; simpl in *; by rewrite Hc.
Qed.

Lemma lstrip_starts (s : text) : starts_space (lstrip s) = false.
Proof.
  induction s as [|c tl IH]; simpl; [done|].
  destruct (is_space c) eqn:Hc; [done|]. simpl. done.
Qed.

Lemma trim_trailing_starts (s : text) :
  starts_space s = false -> starts_space (trim_trailing s) = false.
Proof.
  destruct s as [|c tl]; simpl; [done|]. intros Hc.
  destruct (trim_trailing tl); simpl; by rewrite Hc.
Qed.

Lemma ends_space_cons (c x : ascii) (r : text) :
  ends_space (c :: x :: r) = ends_space (x :: r).
Proof. unfold ends_space. by rewrite last_cons_cons. Qed.

Lemma trim_trailing_ends (s : text) : ends_space (trim_trailing s) = false.
Proof.
  induction s as [|c tl IH]; simpl; [done|].
  destruct (trim_trailing tl) as [|x r].
  - destruct (is_space c) eqn:Hc; [done|]. unfold ends_space. simpl. done.
  - by rewrite ends_space_cons.
Qed.

Lemma lstrip_fixed (s : text) : starts_space s = false -> lstrip s = s.
Proof. destruct s as [|c tl]; simpl; [done|]. by intros ->. Qed.

Lemma trim_trailing_fixed (s : text) :
  ends_space s = false -> trim_trailing s = s.
Proof.
  induction s as [|c tl IH]; simpl; [done|].
  destruct tl as [|x r].
  - unfold ends_space. simpl. by intros ->.
  - rewrite ends_space_cons. intros H. rewrite IH by done. done.
Qed.

Lemma lstrip_incl (s : text) : incl (lstrip s) s.
Proof.
  induction s as [|c tl IH]; simpl; [apply incl_refl|].
  destruct (is_space c); [by apply incl_tl|apply incl_refl].
Qed.

Lemma trim_trailing_incl (s : text) : incl (trim_trailing s) s.
Proof.
  induction s as [|c tl IH]; simpl; [apply incl_refl|].
  destruct (trim_trailing tl) as [|x r].
  - destruct (is_space c); [apply incl_nil_l|].
    intros y [<-|[]]. by left.
  - intros y [<-|Hy]; [by left|right; by apply IH].
Qed.

Lemma strip_incl (s : text) : incl (strip s) s.
Proof.
  unfold strip. rewrite rstrip_trim_trailing.
  eapply incl_tran; [apply trim_trailing_incl|apply lstrip_incl].
Qed.

Lemma collapse_incl (b : bool) (s : text) (c : ascii) :
  In c (sub_class_plus is_space [" "] b s) ->
  c = " " \/ (In c s /\ is_space c = false).
Proof.
  revert b; induction s as [|x tl IH]; intros b; simpl; [done|].
  destruct (is_space x) eqn:Hx.
  - intros [Hc|Hc]%in_app_iff.
    + left. destruct b; simpl in Hc; [done|]. by destruct Hc as [<-|[]].
    + apply IH in Hc as [->|[? ?]]; [by left|right]. split; [by right|done].
  - intros [<-|Hc].
    + right. split; [by left|done].
    + apply IH in Hc as [->|[? ?]]; [by left|right]. split; [by right|done].
Qed.

(** What [apply_regex] returns is made of spaces and of characters of its
    argument. *)
Lemma apply_regex_incl (t : text) (c : ascii) :
  In c (apply_regex t) -> c = " " \/ (In c t /\ allowed c = true).
Proof.
  unfold apply_regex. intros Hc%strip_incl.
  apply collapse_incl in Hc as [->|[Hc _]]; [by left|right].
  rewrite sub_class_nil in Hc. apply filter_In in Hc as [? Hc].
  by rewrite unwanted_allowed in Hc.
Qed.

Lemma apply_regex_clean (t : text) : clean (apply_regex t).
Proof.
  split_and!.
  - apply forallb_forall. intros c Hc.
    pose proof Hc as [->|[_ Hall]]%apply_regex_incl; [done|].
    unfold apply_regex in Hc. apply strip_incl in Hc.
    apply collapse_incl in Hc as [->|[_ Hsp]]; [done|].
    unfold allowed in Hall. unfold out_char.
    rewrite Hsp, orb_false_r in Hall.
    destruct (is_word c); [done|]. simpl in *.
    destruct (Ascii.eqb c ","); [by rewrite orb_true_r|].
    simpl in Hall. rewrite Hall. by rewrite !orb_true_r.
  - unfold apply_regex, strip. rewrite rstrip_trim_trailing.
    apply single_spaced_trim_trailing.
    eapply single_spaced_lstrip, single_spaced_collapse.
  - unfold apply_regex, strip. rewrite rstrip_trim_trailing.
    apply trim_trailing_starts, lstrip_starts.
  - unfold apply_regex, strip. rewrite rstrip_trim_trailing.
    apply trim_trailing_ends.
Qed.

Lemma out_char_allowed (c : ascii) : out_char c = true -> unwanted c = false.
Proof.
  unfold out_char, unwanted.
  destruct (Ascii.eqb_spec c " ") as [->|_]; [done|].
  rewrite orb_false_r. intros H. apply negb_false_iff.
  destruct (is_word c); [done|]. simpl in *.
  destruct (Ascii.eqb c ","); [by rewrite orb_true_r|].
  simpl in H. rewrite H. by rewrite !orb_true_r.
Qed.

Lemma apply_regex_fixed (s : text) : clean s -> apply_regex s = s.
Proof.
  intros (Hch & Hsp & Hst & Hen). unfold apply_regex.
  assert (sub_class unwanted [] s = s) as ->.
  { rewrite sub_class_nil. clear -Hch.
    induction s as [|c tl IH]; simpl in *; [done|].
    apply andb_true_iff in Hch as [Hc Htl].
    by rewrite (out_char_allowed c Hc), IH. }
  rewrite single_spaced_fixed by done.
  unfold strip. rewrite rstrip_trim_trailing, lstrip_fixed by done.
  by apply trim_trailing_fixed.
Qed.

(** C7.  [apply_regex] is idempotent. *)
Theorem apply_regex_idempotent (t : text) :
  apply_regex (apply_regex t) = apply_regex t.
Proof. apply apply_regex_fixed, apply_regex_clean. Qed.

(** ** The cleaned output *)

(** When every match is a key of the dictionary, nothing is raised, and
    the replaced text is made of characters of the text and of the full
    forms. *)
Lemma splice_Forall (P : ascii -> Prop) (d : dict) (s : text)
    (ms : list (nat * text)) (i : nat) (c : Counter) :
  Forall P s ->
  (forall k v, In (k, v) d -> Forall P v) ->
  (forall b w, In (b, w) ms -> lower w = w /\ In w (keys d)) ->
  exists c' out,
    splice (replace_match d) s i ms c = (c', inr out) /\ Forall P out.
Proof.
  intros Hs Hd. revert i c; induction ms as [|[b w] ms IH]; intros i c Hms.
  - exists c, (drop i s). split; [done|]. by apply Forall_drop.
  - destruct (Hms b w) as [Hlow Hin]; [by left|].
    apply dict_get_keys_Some in Hin as (v & Hget & Hv).
    destruct (IH (b + length w) (<[w := (count c w + 1)%Z]> c))
      as (c' & tl & Hrun & Htl).
    { intros b' w' ?. apply (Hms b'). by right. }
    exists c', (take (b - i) (drop i s) ++ v ++ tl). split.
    + simpl. unfold bind at 1. rewrite replace_match_run, Hlow, Hget.
      unfold bind at 1. by rewrite Hrun.
    + apply Forall_app. split; [by apply Forall_take, Forall_drop|].
      apply Forall_app. split; [by eapply Hd|done].
Qed.

Lemma dict_set_values {V} (Q : V -> Prop) (d : list (text * V)) (k0 : text)
    (v0 : V) :
  (forall k v, In (k, v) d -> Q v) -> Q v0 ->
  forall k v, In (k, v) (dict_set d k0 v0) -> Q v.
Proof.
  intros Hd Hv0. induction d as [|[k1 v1] d IH]; simpl.
  - intros k v [[= _ <-]|[]]. done.
  - destruct (decide (k1 = k0)) as [->|Hne].
    + intros k v [[= _ <-]|Hin]; [done|]. eapply Hd. by right.
    + intros k v [[= <- <-]|Hin].
      * eapply Hd. by left.
      * eapply IH; [|done]. intros k' v' ?. eapply Hd. by right.
Qed.

Lemma fold_set_values (Q : text -> Prop) (es : list (text * text))
    (d : dict) :
  (forall k v, In (k, v) d -> Q v) ->
  (forall e, In e es -> Q e.2) ->
  forall k v,
    In (k, v) (fold_left (fun d e => dict_set d e.1 e.2) es d) -> Q v.
Proof.
  revert d; induction es as [|e es IH]; intros d Hd Hes; [done|].
  simpl. apply IH.
  - apply dict_set_values; [done|]. apply Hes. by left.
  - intros e' ?. apply Hes. by right.
Qed.

Lemma lower_not_upper (s : text) :
  Forall (fun ch => is_ascii_upper ch = false) (lower s).
Proof.
  unfold lower. apply List.Forall_forall.
  intros ch (x & <- & _)%in_map_iff. apply lower_char_not_upper.
Qed.

(** The full forms of a loaded table are in lower case. *)
Lemma load_replacements_values (rows : list row) (k v : text) :
  In (k, v) (load_replacements rows).1 ->
  Forall (fun ch => is_ascii_upper ch = false) v.
Proof.
  rewrite load_replacements_table.
  apply fold_set_values; [by intros ?? []|].
  intros e (x & <- & _)%in_map_iff. apply lower_not_upper.
Qed.

Lemma single_spaced_app_inv (b : bool) (l1 l2 : text) :
  single_spaced b (l1 ++ l2) = true -> exists b', single_spaced b' l2 = true.
Proof.
  revert b; induction l1 as [|c l1 IH]; intros b; simpl; [by exists b|].
  destruct (is_space c).
  - rewrite !andb_true_iff. intros [_ H]. by eapply IH.
  - apply IH.
Qed.

Lemma single_spaced_no_run (s l1 l2 : text) :
  single_spaced false s = true -> s <> l1 ++ " " :: " " :: l2.
Proof.
  intros Hs ->. apply single_spaced_app_inv in Hs as [b' Hs].
  simpl in Hs. by destruct b'.
Qed.

(** C10.  With a table loaded from at least one complete row,
    [bulk_replace] returns a text, and [apply_regex] of that text holds no
    upper-case ASCII letter, only word characters, spaces, commas and
    forward slashes, no space at either end and no two spaces in a row. *)
Theorem cleaned_output_shape (rows : list row) (t : text) (c : Counter) :
  (load_replacements rows).1 <> [] ->
  exists c' out,
    bulk_replace t (load_replacements rows).1 (load_replacements rows).2 c
    = (c', inr out)
    /\ Forall (fun ch => is_ascii_upper ch = false) (apply_regex out)
    /\ Forall (fun ch => is_word ch = true \/ ch = " " \/ ch = "," \/ ch = "/")
              (apply_regex out)
    /\ head (apply_regex out) <> Some " "
    /\ last (apply_regex out) <> Some " "
    /\ (forall l1 l2, apply_regex out <> l1 ++ " " :: " " :: l2).
Proof.
  intros Hne.
  destruct (splice_Forall (fun ch => is_ascii_upper ch = false)
              (load_replacements rows).1 (lower t)
              (finditer (load_replacements rows).2 (lower t)) 0 c)
    as (c' & out & Hrun & Hout).
  - apply lower_not_upper.
  - apply load_replacements_values.
  - intros b w [Hin Hocc]%finditer_sound. split.
    + by eapply bounded_occurrence_lower.
    + unfold load_replacements in Hin. simpl in Hin.
      rewrite alts_compile_keys in Hin; [done|].
      unfold load_replacements in Hne. simpl in Hne.
      by destruct (fold_left _ _ _).
  - exists c', out. split; [done|].
    destruct (apply_regex_clean out) as (Hch & Hsp & Hst & Hen).
    split_and!.
    + apply List.Forall_forall. intros ch [->|[Hin _]]%apply_regex_incl;
        [done|].
      by eapply List.Forall_forall in Hout.
    + apply List.Forall_forall. intros ch Hin.
      eapply forallb_forall in Hch; [|done].
      unfold out_char in Hch.
      rewrite !orb_true_iff, !Ascii.eqb_eq in Hch. tauto.
    + intros Hh. destruct (apply_regex out) as [|x r]; [done|].
      simpl in *. by injection Hh as ->.
    + intros Hl. unfold ends_space in Hen. by rewrite Hl in Hen.
    + intros l1 l2. by apply single_spaced_no_run.
Qed.

Lemma cleaned_output_shape_witness :
  exists c' out,
    bulk_replace (txt "Pt BID, c/o HR!") (load_replacements bid_rows).1
      (load_replacements bid_rows).2 ∅
    = (c', inr out)
    /\ Forall (fun ch => is_ascii_upper ch = false) (apply_regex out)
    /\ Forall (fun ch => is_word ch = true \/ ch = " " \/ ch = "," \/ ch = "/")
              (apply_regex out)
    /\ head (apply_regex out) <> Some " "
    /\ last (apply_regex out) <> Some " "
    /\ (forall l1 l2, apply_regex out <> l1 ++ " " :: " " :: l2).
Proof.
  apply (cleaned_output_shape bid_rows (txt "Pt BID, c/o HR!") ∅).
  vm_compute. discriminate.
Defined.

(** ** [clean_notes] *)

Lemma clean_notes_outcome (df : DataFrame) (d : dict) (p : Pattern) :
  outcome (clean_notes df d p)
  = match dict_get df (txt "Clinical Notes") with
    | None => inl (KeyError (txt "Clinical Notes"))
    | Some notes =>
        match series_apply (fun t => let* r := bulk_replace t d p in
                              ret (apply_regex r)) (map str notes) ∅ with
        | (counter, inr cleaned) => inr (Some (map Str cleaned), counter)
        | (_, inl e) => inl e
        end
    end.
Proof.
  unfold clean_notes, outcome.
  destruct (dict_get df (txt "Clinical Notes")) as [notes|]; [|done].
  destruct (series_apply _ (map str notes) ∅) as [counter [e|cleaned]];
    [done|].
  simpl. rewrite dict_get_set. by rewrite decide_True.
Qed.

Lemma clean_notes_keeps_notes (df : DataFrame) (d : dict) (p : Pattern) :
  dict_get (clean_notes df d p).1 (txt "Clinical Notes")
  = dict_get df (txt "Clinical Notes").
Proof.
  unfold clean_notes.
  destruct (dict_get df (txt "Clinical Notes")) as [notes|] eqn:E; [|done].
  destruct (series_apply _ (map str notes) ∅) as [counter [e|cleaned]]; simpl;
    rewrite ?dict_get_set, ?decide_False, ?E; done.
Qed.

(** C8.  Two runs of [clean_notes] with the same dictionary and pattern on
    frames that hold the same clinical notes have the same outcome: the
    same cleaned notes and the same counts, or the same exception.  This
    holds in particular for a second run on the frame the first run has
    updated. *)
Theorem clean_notes_deterministic (d : dict) (p : Pattern) :
  (forall df df',
      dict_get df (txt "Clinical Notes") = dict_get df' (txt "Clinical Notes")
      -> outcome (clean_notes df d p) = outcome (clean_notes df' d p))
  /\ (forall df,
        outcome (clean_notes (clean_notes df d p).1 d p)
        = outcome (clean_notes df d p)).
Proof.
  split.
  - intros df df' H. by rewrite !clean_notes_outcome, H.
  - intros df. by rewrite !clean_notes_outcome, clean_notes_keeps_notes.
Qed.

Lemma clean_notes_deterministic_witness :
  outcome (clean_notes
             [(txt "Clinical Notes", [Str (txt "Pt c/o HR"); NaN; Int 12])]
             scenario_dict scenario_pattern)
  = outcome (clean_notes
               [(txt "Id", [Int 1; Int 2; Int 3]);
                (txt "Clinical Notes", [Str (txt "Pt c/o HR"); NaN; Int 12])]
               scenario_dict scenario_pattern).
Proof.
  destruct (clean_notes_deterministic scenario_dict scenario_pattern)
    as [H _].
  apply H. reflexivity.
Defined.

(** * Further properties of the code *)

(** ** The matches of a scan *)

Lemma coherent_weaken (s : text) (i i' : nat) (ms : list (nat * text)) :
  i' <= i -> coherent s i ms -> coherent s i' ms.
Proof.
  destruct ms as [|[b w] ms]; simpl; [done|].
  intros ? (? & ? & ? & ?). split_and!; [lia|done..].
Qed.

Lemma bounded_occurrence_inv (k s : text) (i : nat) :
  bounded_occurrence k s i = true ->
  take (length k) (drop i s) = k /\ i + length k <= length s.
Proof.
  unfold bounded_occurrence, occurs_at.
  rewrite !andb_true_iff, !bool_decide_eq_true. intros [[[Hk Hi] _] _].
  split; [done|].
  apply (f_equal length) in Hk. rewrite length_take, length_drop in Hk. lia.
Qed.

Section scan_order.

Context (p : Pattern).

(** The matches that start at one position: nothing, one match, or the
    empty match and a match that is not empty. *)
Lemma matches_at_shape (prev : bool) (rest : text) :
  matches_at p prev rest = []
  \/ (exists a, matches_at p prev rest = [a])
  \/ (exists a, a <> [] /\ matches_at p prev rest = [ []; a ]).
Proof.
  unfold matches_at.
  destruct (match_here p prev rest false) as [a0|]; [|by left].
  destruct a0 as [|x a0]; simpl; [|right; left; by eexists].
  destruct (match_here p prev rest true) as [a1|] eqn:H1;
    [|right; left; by eexists].
  right; right. exists a1. split; [|done].
  unfold match_here in H1. apply find_some in H1 as [_ H1].
  unfold match_alt in H1. intros ->. simpl in H1.
  by rewrite !andb_false_r in H1.
Qed.

Lemma finditer_from_coherent (rest pre : text) (skip : nat) :
  skip <= length rest ->
  coherent (pre ++ rest) (length pre + skip)
    (finditer_from p (last_is_word pre) (length pre) skip rest).
Proof.
  revert pre skip; induction rest as [|c tl IH]; intros pre skip Hskip.
  - simpl in Hskip. assert (skip = 0) as -> by lia. simpl.
    destruct (matches_at_shape (last_is_word pre) [])
      as [E|[[a E]|(a & _ & E)]].
    + by rewrite E.
    + assert (In a (matches_at p (last_is_word pre) [])) as Ha
        by (rewrite E; by left).
      apply matches_at_sound in Ha as [_ [Ha1 Ha2]%bounded_occurrence_inv].
      rewrite E. simpl. split_and!; [lia|done..].
    + assert (In a (matches_at p (last_is_word pre) [])) as Ha
        by (rewrite E; right; by left).
      apply matches_at_sound in Ha as [_ [Ha1 Ha2]%bounded_occurrence_inv].
      rewrite E. simpl. rewrite app_nil_r in *.
      split_and!; try done; lia.
  - assert (Hstep : forall k, k <= length tl ->
      coherent (pre ++ c :: tl) (S (length pre) + k)
        (finditer_from p (is_word c) (S (length pre)) k tl)).
    { intros k Hk. specialize (IH (pre ++ [c]) k Hk).
      rewrite last_is_word_snoc, length_app, Nat.add_1_r in IH.
      by rewrite <- app_assoc in IH. }
    destruct skip as [|skip]; simpl.
    2:{ simpl in Hskip. replace (length pre + S skip)
          with (S (length pre) + skip) by lia.
        apply Hstep. lia. }
    assert (forall a, In a (matches_at p (last_is_word pre) (c :: tl)) ->
              take (length a) (drop (length pre) (pre ++ c :: tl)) = a
              /\ length pre + length a <= length (pre ++ c :: tl)) as Hocc.
    { intros a Ha. apply matches_at_sound in Ha as [_ Ha].
      by apply bounded_occurrence_inv. }
    assert (forall a, In a (matches_at p (last_is_word pre) (c :: tl)) ->
              pred (length a) <= length tl) as Hlen.
    { intros a Ha. apply Hocc in Ha as [_ Ha].
      rewrite length_app in Ha. simpl in Ha. lia. }
    destruct (matches_at_shape (last_is_word pre) (c :: tl))
      as [E|[[a E]|(a & Hne & E)]]; rewrite E in *; simpl.
    + eapply coherent_weaken; [|apply (Hstep 0); lia]. lia.
    + destruct (Hocc a) as [Ha1 Ha2]; [by left|].
      rewrite app_nil_r. split_and!; [lia|done..|].
      eapply coherent_weaken; [|apply (Hstep (pred (length a)))].
      * lia.
      * apply Hlen. by left.
    + destruct (Hocc a) as [Ha1 Ha2]; [right; by left|].
      rewrite app_nil_r.
      split_and!; [lia|lia|done|lia|done..|].
      eapply coherent_weaken; [|apply (Hstep (pred (length a)))].
      * lia.
      * apply Hlen. right; by left.
Qed.

Lemma finditer_coherent (s : text) : coherent s 0 (finditer p s).
Proof. apply (finditer_from_coherent s [] 0). lia. Qed.

End scan_order.

(** ** What [bulk_replace] returns and counts *)

Lemma count_insert (c : Counter) (w k : text) (z : Z) :
  count (<[w := z]> c) k = if decide (w = k) then z else count c k.
Proof.
  unfold count. destruct (decide (w = k)) as [->|Hne].
  - by rewrite lookup_insert_eq.
  - by rewrite lookup_insert_ne.
Qed.

Lemma times_cons (k : text) (b : nat) (w : text) (ms : list (nat * text)) :
  times k ((b, w) :: ms) = (if decide (w = k) then 1 else 0) + times k ms.
Proof.
  unfold times. simpl.
  destruct (decide (w = k)) as [->|Hne].
  - by rewrite bool_decide_eq_true_2.
  - by rewrite bool_decide_eq_false_2.
Qed.

Section splice_facts.

Context (d : dict) (s : text).

(** The text (or the exception) does not depend on the counter. *)
Lemma splice_text_counter (ms : list (nat * text)) (i : nat)
    (c c0 : Counter) :
  (splice (replace_match d) s i ms c).2
  = (splice (replace_match d) s i ms c0).2.
Proof.
  revert i c c0; induction ms as [|[b w] ms IH]; intros i c c0; [done|].
  simpl. unfold bind at 1 3. rewrite !replace_match_run.
  destruct (dict_get d (lower w)) as [full|]; [|done].
  unfold bind at 1 2.
  specialize (IH (b + length w)
                 (<[lower w := (count c (lower w) + 1)%Z]> c)
                 (<[lower w := (count c0 (lower w) + 1)%Z]> c0)).
  destruct (splice _ s _ ms (<[_ := _]> c)) as [c1 [e1|tl1]];
    destruct (splice _ s _ ms (<[_ := _]> c0)) as [c2 [e2|tl2]];
    simpl in *; congruence.
Qed.

(** A call that returns has counted every match once. *)
Lemma splice_counts (ms : list (nat * text)) (i : nat) (c : Counter)
    (k : text) :
  (forall b w, In (b, w) ms -> lower w = w) ->
  (exists out, (splice (replace_match d) s i ms c).2 = inr out) ->
  count (splice (replace_match d) s i ms c).1 k
  = (count c k + Z.of_nat (times k ms))%Z.
Proof.
  revert i c; induction ms as [|[b w] ms IH]; intros i c Hlow [out Hout].
  - unfold times. simpl. lia.
  - rewrite times_cons. simpl in *. unfold bind at 1 in Hout.
    unfold bind at 1. rewrite replace_match_run in *.
    rewrite (Hlow b w) in * by (by left).
    destruct (dict_get d w) as [full|]; [|done].
    unfold bind at 1 in Hout. unfold bind at 1.
    specialize (IH (b + length w) (<[w := (count c w + 1)%Z]> c)).
    destruct (splice _ s _ ms _) as [c' [e|tl]]; [done|]. simpl in *.
    rewrite IH; [|intros b' w' ?; apply (Hlow b'); by right|by eexists].
    rewrite count_insert. destruct (decide (w = k)) as [->|]; lia.
Qed.

(** The matches being keys of the dictionary, the call returns. *)
Lemma splice_returns (ms : list (nat * text)) (i : nat) (c : Counter) :
  (forall b w, In (b, w) ms -> lower w = w /\ In w (keys d)) ->
  exists out, (splice (replace_match d) s i ms c).2 = inr out.
Proof.
  intros Hms.
  destruct (splice_Forall (fun _ => True) d s ms i c)
    as (c' & out & Hrun & _).
  - apply List.Forall_forall. done.
  - intros k v _. apply List.Forall_forall. done.
  - done.
  - exists out. by rewrite Hrun.
Qed.

(** With every match replaced by itself the text comes back. *)
Lemma splice_identity (ms : list (nat * text)) (i : nat) (c : Counter) :
  coherent s i ms ->
  (forall b w, In (b, w) ms -> dict_get d (lower w) = Some w) ->
  (splice (replace_match d) s i ms c).2 = inr (drop i s).
Proof.
  revert i c; induction ms as [|[b w] ms IH]; intros i c Hco Hid; [done|].
  simpl in Hco. destruct Hco as (Hib & Hbs & Hw & Hco).
  simpl. unfold bind at 1. rewrite replace_match_run.
  rewrite (Hid b w) by (by left). unfold bind at 1.
  assert (forall b' w', In (b', w') ms -> dict_get d (lower w') = Some w')
    as Hid' by (intros b' w' ?; apply (Hid b'); by right).
  specialize (IH (b + length w) (<[lower w := (count c (lower w) + 1)%Z]> c)
                 Hco Hid').
  destruct (splice _ s _ ms _) as [c' [e|tl]]; simpl in *; [done|].
  injection IH as ->. f_equal.
  - assert (drop (b + length w) s = drop (length w) (drop b s)) as ->
      by (by rewrite drop_drop).
    rewrite <- Hw at 1. rewrite take_drop.
    assert (drop b s = drop (b - i) (drop i s)) as ->
      by (rewrite drop_drop; f_equal; lia).
    by rewrite take_drop.
Qed.

End splice_facts.

Lemma is_word_lower_char (c : ascii) : is_word (lower_char c) = is_word c.
Proof. destruct c as [[] [] [] [] [] [] [] []]; reflexivity. Qed.

Lemma is_space_lower_char (c : ascii) : is_space (lower_char c) = is_space c.
Proof. destruct c as [[] [] [] [] [] [] [] []]; reflexivity. Qed.

(** A text without a word character has no word boundary. *)
Lemma no_word_no_boundary (s : text) (i : nat) :
  forallb (fun ch => negb (is_word ch)) s = true -> boundary_at s i = false.
Proof.
  intros Hs.
  assert (forall ch, ch ∈ s -> is_word ch = false) as Hw.
  { intros ch Hch%list_elem_of_In. rewrite forallb_forall in Hs.
    by apply negb_true_iff, Hs. }
  unfold boundary_at.
  assert (last_is_word (take i s) = false) as ->.
  { unfold last_is_word. destruct (last (take i s)) as [ch|] eqn:E; [|done].
    apply last_Some_elem_of in E. by apply Hw, (subseteq_take i s). }
  destruct (drop i s) as [|ch r] eqn:E; [done|]. simpl.
  apply Hw, (subseteq_drop i s). rewrite E. apply elem_of_cons. by left.
Qed.

Lemma finditer_lower_keys (d : dict) (t : text) (b : nat) (w : text) :
  d <> [] ->
  In (b, w) (finditer (compile_keys (keys d)) (lower t)) ->
  lower w = w /\ In w (keys d).
Proof.
  intros Hne [Hin Hocc]%finditer_sound. split.
  - by eapply bounded_occurrence_lower.
  - rewrite alts_compile_keys in Hin; [done|]. by destruct d.
Qed.

Lemma times_0 (k : text) (ms : list (nat * text)) :
  ~ In k (map snd ms) -> times k ms = 0.
Proof.
  induction ms as [|[b w] ms IH]; [done|]. rewrite times_cons. simpl.
  intros Hk. rewrite IH by tauto. destruct (decide (w = k)); [|done].
  destruct Hk. by left.
Qed.

(** X1.  A text without a word character comes back in lower case, with
    the counter as it was and without an exception, whatever the
    dictionary and the pattern are: [\b] holds nowhere in it. *)
Theorem bulk_replace_no_word (d : dict) (p : Pattern) (t : text)
    (c : Counter) :
  forallb (fun ch => negb (is_word ch)) t = true ->
  bulk_replace t d p c = (c, inr (lower t)).
Proof.
  intros Ht. unfold bulk_replace, sub, finditer.
  rewrite (finditer_from_nil _ (lower t) [] 0); [done|].
  intros a i _ _. unfold bounded_occurrence.
  rewrite no_word_no_boundary, andb_false_r; [done|].
  unfold lower. rewrite forallb_forall in *.
  intros ch (x & <- & Hx)%in_map_iff. rewrite is_word_lower_char. by apply Ht.
Qed.

Lemma bulk_replace_no_word_witness :
  bulk_replace (txt " -- !? ") [] empty_pattern ∅
  = (∅, inr (lower (txt " -- !? "))).
Proof. apply bulk_replace_no_word. reflexivity. Defined.

(** X2.  With a dictionary that is not empty and the pattern compiled from
    its keys, [bulk_replace] returns a text; the count of every word has
    grown by the number of matches of that word, and only the keys of the
    dictionary are matched. *)
Theorem bulk_replace_counts (d : dict) (t : text) (c : Counter) :
  d <> [] ->
  let ms := finditer (compile_keys (keys d)) (lower t) in
  let r := bulk_replace t d (compile_keys (keys d)) c in
  (exists out, r.2 = inr out)
  /\ (forall k, count r.1 k = (count c k + Z.of_nat (times k ms))%Z)
  /\ (forall k, ~ In k (keys d) -> times k ms = 0).
Proof.
  intros Hne ms r.
  assert (exists out, r.2 = inr out) as Hret.
  { apply splice_returns. intros b w. by apply finditer_lower_keys. }
  split_and!; [done| |].
  - intros k. apply splice_counts; [|done].
    intros b w Hin. by eapply finditer_lower_keys.
  - intros k Hk. apply times_0.
    intros ([b w] & <- & Hin)%in_map_iff.
    apply Hk. by eapply finditer_lower_keys.
Qed.

Lemma bulk_replace_counts_witness :
  let ms := finditer scenario_pattern (lower (txt "HR, hr and C/O")) in
  let r := bulk_replace (txt "HR, hr and C/O") scenario_dict
             scenario_pattern ∅ in
  (exists out, r.2 = inr out)
  /\ (forall k, count r.1 k = (count ∅ k + Z.of_nat (times k ms))%Z)
  /\ (forall k, ~ In k (keys scenario_dict) -> times k ms = 0).
Proof.
  apply (bulk_replace_counts scenario_dict (txt "HR, hr and C/O") ∅).
  discriminate.
Defined.

Lemma bulk_replace_counter_free (t : text) (d : dict) (p : Pattern)
    (c c0 : Counter) :
  (bulk_replace t d p c).2 = (bulk_replace t d p c0).2.
Proof. apply splice_text_counter. Qed.

(** X3.  The text that [bulk_replace] returns, or the exception it raises,
    does not depend on what the counter holds. *)
Theorem bulk_replace_text_counter (t : text) (d : dict) (p : Pattern)
    (c c0 : Counter) :
  (bulk_replace t d p c).2 = (bulk_replace t d p c0).2.
Proof. apply splice_text_counter. Qed.

(** X4.  The matches that [bulk_replace] substitutes come in the order of
    the text and do not overlap: each starts at or after the end of the
    one before, ends inside the text, and is the text that stands at its
    offset. *)
Theorem bulk_replace_matches_in_order (t : text) (p : Pattern) :
  coherent (lower t) 0 (finditer p (lower t)).
Proof. apply finditer_coherent. Qed.

(** X5.  When every key of a dictionary that is not empty is its own full
    form, [bulk_replace] returns the lower-cased text: what stands between
    the matches is copied as it is. *)
Theorem bulk_replace_identity (d : dict) (t : text) (c : Counter) :
  d <> [] ->
  (forall k, In k (keys d) -> dict_get d k = Some k) ->
  (bulk_replace t d (compile_keys (keys d)) c).2 = inr (lower t).
Proof.
  intros Hne Hid. unfold bulk_replace, sub.
  rewrite (splice_identity d (lower t) _ 0 c); [done|apply finditer_coherent|].
  intros b w [-> Hin]%finditer_lower_keys; [|done]. by apply Hid.
Qed.

Lemma bulk_replace_identity_witness :
  (bulk_replace (txt "Pt c/o HR") [(txt "hr", txt "hr"); (txt "c/o", txt "c/o")]
     (compile_keys [txt "hr"; txt "c/o"]) ∅).2
  = inr (lower (txt "Pt c/o HR")).
Proof.
  apply (bulk_replace_identity [(txt "hr", txt "hr"); (txt "c/o", txt "c/o")]).
  - discriminate.
  - intros k [<-|[<-|[]]]; reflexivity.
Defined.

(** ** More on the table of [load_replacements] *)

Lemma strip_lower (s : text) : strip (lower s) = lower (strip s).
Proof.
  assert (forall x, lstrip (lower x) = lower (lstrip x)) as Hl.
  { induction x as [|ch x IH]; simpl; [done|].
    rewrite is_space_lower_char. by destruct (is_space ch). }
  assert (forall x, rev (lower x) = lower (rev x)) as Hr
    by (intros x; unfold lower; by rewrite map_rev).
  unfold strip, rstrip. by rewrite Hl, Hr, Hl, Hr.
Qed.

Lemma lstrip_idem (s : text) : lstrip (lstrip s) = lstrip s.
Proof. apply lstrip_fixed, lstrip_starts. Qed.

Lemma strip_idem (s : text) : strip (strip s) = strip s.
Proof.
  unfold strip. rewrite !rstrip_trim_trailing.
  rewrite lstrip_fixed by apply trim_trailing_starts, lstrip_starts.
  apply trim_trailing_fixed, trim_trailing_ends.
Qed.

Lemma normalise_entry_idem (e : text * text) :
  normalise_entry (normalise_entry e) = normalise_entry e.
Proof.
  unfold normalise_entry. simpl.
  by rewrite !strip_lower, !strip_idem, !lower_idem.
Qed.


Lemma In_fold_set (es : list (text * text)) (d : dict) (k v : text) :
  In (k, v) (fold_left (fun d e => dict_set d e.1 e.2) es d) ->
  In (k, v) d \/ In (k, v) es.
Proof.
  revert d; induction es as [|[k0 v0] es IH]; intros d; simpl; [by left|].
  intros [Hin|Hin]%IH; [|right; by right].
  clear IH. induction d as [|[k1 v1] d IHd]; simpl in Hin.
  - destruct Hin as [[= <- <-]|[]]. right; by left.
  - destruct (decide (k1 = k0)) as [->|Hne].
    + destruct Hin as [[= <- <-]|Hin]; [right; by left|left; by right].
    + destruct Hin as [Hin|Hin]; [left; by left|].
      destruct (IHd Hin) as [?|?]; [left; by right|by right].
Qed.

Lemma keys_fold_set (es : list (text * text)) (d : dict) :
  keys (fold_left (fun d e => dict_set d e.1 e.2) es d)
  = keys d ++ first_occurrences (keys d) (map fst es).
Proof.
  revert d; induction es as [|[k v] es IH]; intros d; simpl.
  - by rewrite app_nil_r.
  - rewrite IH. unfold keys at 1 2. rewrite keys_dict_set. fold (keys d).
    destruct (decide (k ∈ keys d)); [done|].
    by rewrite <- app_assoc.
Qed.

Lemma load_replacements_entry (rows : list row) (k v : text) :
  In (k, v) (load_replacements rows).1 ->
  exists e, In e (dropna rows) /\ (k, v) = normalise_entry e.
Proof.
  rewrite load_replacements_table. intros [[]|Hin]%In_fold_set.
  unfold entries in Hin. apply in_map_iff in Hin as (e & <- & He).
  by exists e.
Qed.

Lemma load_replacements_fixed (rows : list row) (e : text * text) :
  In e (load_replacements rows).1 -> normalise_entry e = e.
Proof.
  destruct e as [k v]. intros (e & _ & ->)%load_replacements_entry.
  apply normalise_entry_idem.
Qed.



(** X7.  Every key and every full form of the table is trimmed and in
    lower case: [strip] and [lower] leave them as they are. *)
Theorem load_replacements_normalised (rows : list row) (k v : text) :
  In (k, v) (load_replacements rows).1 ->
  strip k = k /\ lower k = k /\ strip v = v /\ lower v = v.
Proof.
  intros He%load_replacements_fixed.
  unfold normalise_entry in He. simpl in He. injection He as Hk Hv.
  rewrite <- Hk, <- Hv.
  by rewrite !strip_lower, !strip_idem, !lower_idem.
Qed.

Lemma load_replacements_normalised_witness :
  strip (txt "bid") = txt "bid" /\ lower (txt "bid") = txt "bid"
  /\ strip (txt "two times a day") = txt "two times a day"
  /\ lower (txt "two times a day") = txt "two times a day".
Proof.
  apply (load_replacements_normalised bid_rows). vm_compute. by left.
Defined.

(** X8.  The keys of the table stand in the order in which the shorthands
    first occur in the file, whichever entry gives the full form; this is
    the order of the alternatives of the pattern, and the pattern has the
    single empty alternative exactly when the file has no complete row. *)
Theorem load_replacements_key_order (rows : list row) :
  keys (load_replacements rows).1
  = first_occurrences [] (map fst (entries rows))
  /\ (dropna rows <> [] ->
      alts (load_replacements rows).2
      = first_occurrences [] (map fst (entries rows)))
  /\ (dropna rows = [] -> alts (load_replacements rows).2 = [ [] ]).
Proof.
  assert (keys (load_replacements rows).1
          = first_occurrences [] (map fst (entries rows))) as Hk
    by (rewrite load_replacements_table; apply keys_fold_set).
  split_and!; [done| |].
  - intros Hne.
    change (load_replacements rows).2
      with (compile_keys (keys (load_replacements rows).1)).
    rewrite alts_compile_keys; [done|].
    rewrite Hk. unfold entries. destruct (dropna rows) as [|e es]; [done|].
    cbn [map first_occurrences].
    destruct (decide _) as [[]%elem_of_nil|]; done.
  - intros He. unfold load_replacements. by rewrite He.
Qed.

Lemma load_replacements_key_order_witness :
  alts (load_replacements bid_rows).2
  = first_occurrences [] (map fst (entries bid_rows)).
Proof.
  destruct (load_replacements_key_order bid_rows) as (_ & H & _).
  apply H. discriminate.
Defined.

(** ** More on the normalizer *)

Lemma filter_length_le {A} (f : A -> bool) (l : list A) :
  length (List.filter f l) <= length l.
Proof.
  induction l as [|x l IH]; simpl; [done|]. destruct (f x); simpl; lia.
Qed.

Lemma trim_trailing_length (s : text) : length (trim_trailing s) <= length s.
Proof.
  induction s as [|c tl IH]; simpl; [done|].
  destruct (trim_trailing tl); simpl in *; [destruct (is_space c); simpl|];
    lia.
Qed.

Lemma collapse_length (b : bool) (s : text) :
  length (sub_class_plus is_space [" "] b s) <= length s.
Proof.
  revert b; induction s as [|c tl IH]; intros b; simpl; [done|].
  destruct (is_space c).
  - rewrite length_app. specialize (IH true). destruct b; simpl; lia.
  - specialize (IH false). simpl. lia.
Qed.

Lemma visible_lstrip (s : text) : visible (lstrip s) = visible s.
Proof.
  induction s as [|c tl IH]; simpl; [done|].
  destruct (is_space c) eqn:Hc; simpl; by rewrite ?Hc.
Qed.

Lemma visible_trim_trailing (s : text) :
  visible (trim_trailing s) = visible s.
Proof.
  induction s as [|c tl IH]; simpl; [done|].
  destruct (trim_trailing tl) as [|x r]; simpl in *.
  - rewrite <- IH. by destruct (is_space c) eqn:Hc; simpl; rewrite ?Hc.
  - rewrite <- IH. done.
Qed.

Lemma visible_collapse (b : bool) (s : text) :
  visible (sub_class_plus is_space [" "] b s) = visible s.
Proof.
  revert b; induction s as [|c tl IH]; intros b; simpl; [done|].
  destruct (is_space c) eqn:Hc; simpl.
  - unfold visible in *. rewrite List.filter_app, IH. by destruct b.
  - by rewrite Hc, IH.
Qed.

Lemma visible_apply_regex (t : text) :
  visible (apply_regex t)
  = List.filter (fun ch => allowed ch && negb (is_space ch)) t.
Proof.
  unfold apply_regex, strip.
  rewrite rstrip_trim_trailing, visible_trim_trailing, visible_lstrip,
    visible_collapse, sub_class_nil.
  unfold visible. rewrite filter_filter_andb.
  apply filter_ext. intros ch. by rewrite unwanted_allowed.
Qed.

(** X10.  [apply_regex] neither drops nor alters nor reorders a word
    character, a comma or a forward slash: apart from whitespace, its
    result is its argument without the unwanted characters. *)
Theorem apply_regex_keeps (t : text) :
  visible (apply_regex t)
  = List.filter (fun ch => allowed ch && negb (is_space ch)) t.
Proof. apply visible_apply_regex. Qed.

(** X11.  [apply_regex] returns the empty text exactly for a text that
    holds no word character, comma or forward slash (the empty text, blank
    lines, punctuation only). *)
Theorem apply_regex_empty (t : text) :
  apply_regex t = []
  <-> forallb (fun ch => is_space ch || unwanted ch) t = true.
Proof.
  assert (List.filter (fun ch => allowed ch && negb (is_space ch)) t = []
          <-> forallb (fun ch => is_space ch || unwanted ch) t = true) as Hf.
  { induction t as [|ch t IH]; simpl; [done|].
    rewrite andb_true_iff, <- IH. unfold unwanted. fold (allowed ch).
    destruct (allowed ch), (is_space ch); simpl; split;
      (discriminate || tauto || (by intros [??])). }
  rewrite <- Hf, <- visible_apply_regex. split; [by intros ->|].
  intros Hv. destruct (apply_regex_clean t) as (_ & _ & Hst & _).
  destruct (apply_regex t) as [|ch r]; [done|].
  simpl in *. by rewrite Hst in Hv.
Qed.

(** X12.  [apply_regex] never returns a text longer than its argument. *)
Theorem apply_regex_length (t : text) :
  length (apply_regex t) <= length t.
Proof.
  unfold apply_regex, strip. rewrite rstrip_trim_trailing, sub_class_nil.
  etrans; [apply trim_trailing_length|].
  etrans; [apply lstrip_length|].
  etrans; [apply collapse_length|]. apply filter_length_le.
Qed.

Lemma filter_not_slash_fixed (s : text) :
  ~ In "/" s -> List.filter not_slash s = s.
Proof.
  induction s as [|c s IH]; simpl; [done|]. intros Hno.
  unfold not_slash at 1.
  destruct (Ascii.eqb_spec c "/") as [->|Hne]; simpl.
  - destruct Hno. by left.
  - rewrite IH; [done|]. intros ?. apply Hno. by right.
Qed.

Lemma apply_regex4_slash_free (t : text) : ~ In "/" (apply_regex4 t).
Proof.
  rewrite apply_regex4_no_slash.
  intros [[=]|[Hin _]]%apply_regex_incl.
  apply filter_In in Hin as [_ Hin]. done.
Qed.

(** X13.  The normalizer of cleansing4.py is idempotent, its result holds
    no forward slash, and the normalizer of cleanser.py leaves that result
    as it is. *)
Theorem apply_regex4_idempotent (t : text) :
  apply_regex4 (apply_regex4 t) = apply_regex4 t
  /\ ~ In "/" (apply_regex4 t)
  /\ apply_regex (apply_regex4 t) = apply_regex4 t.
Proof.
  assert (apply_regex (apply_regex4 t) = apply_regex4 t) as Hfix.
  { rewrite apply_regex4_no_slash.
    apply apply_regex_fixed, apply_regex_clean. }
  split_and!; [|apply apply_regex4_slash_free|done].
  rewrite (apply_regex4_no_slash (apply_regex4 t)).
  by rewrite filter_not_slash_fixed by apply apply_regex4_slash_free.
Qed.

(** ** More on [clean_notes] *)

Local Abbreviation note_fn d p :=
  (fun t => let* r := bulk_replace t d p in ret (apply_regex r)).

Lemma note_fn_run (d : dict) (p : Pattern) (t : text) (c : Counter) :
  note_fn d p t c
  = ((bulk_replace t d p c).1,
     match (bulk_replace t d p c).2 with
     | inr r => inr (apply_regex r)
     | inl e => inl e
     end).
Proof. unfold bind, ret. by destruct (bulk_replace t d p c) as [c' [e|r]]. Qed.

Lemma series_apply_cons {A B} (f : A -> M B) (x : A) (l : list A)
    (c : Counter) :
  series_apply f (x :: l) c
  = match f x c with
    | (c1, inl e) => (c1, inl e)
    | (c1, inr y) =>
        match series_apply f l c1 with
        | (c2, inl e) => (c2, inl e)
        | (c2, inr ys) => (c2, inr (y :: ys))
        end
    end.
Proof.
  simpl. unfold bind at 1. destruct (f x c) as [c1 [e|y]]; [done|].
  unfold bind, ret. by destruct (series_apply f l c1) as [c2 [e|ys]].
Qed.

(** The cleaned notes, or the exception, are those of the notes cleaned
    each on its own. *)
Lemma series_apply_clean_all (d : dict) (p : Pattern) (l : list text)
    (c : Counter) :
  (series_apply (note_fn d p) l c).2 = clean_all d p l.
Proof.
  revert c; induction l as [|t l IH]; intros c; [done|].
  rewrite series_apply_cons, note_fn_run. simpl. unfold clean_text.
  rewrite (bulk_replace_counter_free t d p c ∅).
  destruct (bulk_replace t d p ∅).2 as [e|r]; [done|].
  specialize (IH (bulk_replace t d p c).1).
  destruct (series_apply _ l _) as [c2 [e|ys]]; simpl in *; by rewrite <- IH.
Qed.

Lemma bulk_replace_count_delta (t : text) (d : dict) (p : Pattern)
    (c : Counter) (k : text) :
  (exists out, (bulk_replace t d p c).2 = inr out) ->
  count (bulk_replace t d p c).1 k
  = (count c k + Z.of_nat (times k (finditer p (lower t))))%Z.
Proof.
  intros Hret. apply splice_counts; [|done].
  intros b w [_ Hocc]%finditer_sound. by eapply bounded_occurrence_lower.
Qed.

Lemma series_apply_counts (d : dict) (p : Pattern) (l : list text)
    (c : Counter) (k : text) :
  (exists ys, (series_apply (note_fn d p) l c).2 = inr ys) ->
  count (series_apply (note_fn d p) l c).1 k
  = (count c k
     + Z.of_nat (sum_list_with
                   (fun t => times k (finditer p (lower t))) l))%Z.
Proof.
  revert c; induction l as [|t l IH]; intros c [ys Hys].
  - simpl. lia.
  - rewrite series_apply_cons, note_fn_run in *. simpl in *.
    pose proof (bulk_replace_count_delta t d p c k) as Hd.
    destruct (bulk_replace t d p c).2 as [e|r]; [done|].
    specialize (IH (bulk_replace t d p c).1).
    destruct (series_apply _ l _) as [c2 [e|zs]]; [done|]. simpl in *.
    rewrite IH by (by eexists). rewrite Hd by (by eexists). lia.
Qed.

(** A call that returns leaves a counter the reports can read. *)
Lemma splice_reportable (d : dict) (s : text) (ms : list (nat * text))
    (i : nat) (c : Counter) :
  reportable d c ->
  (exists out, (splice (replace_match d) s i ms c).2 = inr out) ->
  reportable d (splice (replace_match d) s i ms c).1.
Proof.
  revert i c; induction ms as [|[b w] ms IH]; intros i c Hc [out Hout];
    [done|].
  simpl in *. unfold bind at 1 in Hout. unfold bind at 1.
  rewrite replace_match_run in *.
  destruct (dict_get d (lower w)) as [full|] eqn:Hget; [|done].
  unfold bind at 1 in Hout. unfold bind at 1.
  specialize (IH (b + length w) (<[lower w := (count c (lower w) + 1)%Z]> c)).
  destruct (splice _ s _ ms _) as [c' [e|tl]]; [done|]. simpl in *.
  apply IH; [|by eexists].
  intros k n. destruct (decide (lower w = k)) as [<-|Hne].
  - rewrite lookup_insert_eq. intros [= <-]. split.
    + unfold count. destruct (c !! lower w) as [m|] eqn:E; simpl; [|lia].
      apply Hc in E as [? _]. lia.
    + by eapply dict_get_Some_keys.
  - rewrite lookup_insert_ne by done. apply Hc.
Qed.

Lemma series_apply_reportable (d : dict) (p : Pattern) (l : list text)
    (c : Counter) :
  reportable d c ->
  (exists ys, (series_apply (note_fn d p) l c).2 = inr ys) ->
  reportable d (series_apply (note_fn d p) l c).1.
Proof.
  revert c; induction l as [|t l IH]; intros c Hc [ys Hys]; [done|].
  rewrite series_apply_cons, note_fn_run in *. simpl in *.
  pose proof (splice_reportable d (lower t) (finditer p (lower t)) 0 c Hc)
    as Hd.
  fold (sub p (replace_match d) (lower t)) in Hd.
  fold (bulk_replace t d p) in Hd.
  destruct (bulk_replace t d p c).2 as [e|r]; [done|].
  specialize (IH (bulk_replace t d p c).1).
  destruct (series_apply _ l _) as [c2 [e|zs]]; [done|]. simpl in *.
  apply IH; [|by eexists]. apply Hd. by eexists.
Qed.

Lemma clean_all_returns (d : dict) (l : list text) :
  d <> [] -> exists ys, clean_all d (compile_keys (keys d)) l = inr ys.
Proof.
  intros Hne. induction l as [|t l [ys IH]]; [by eexists|].
  simpl. unfold clean_text.
  destruct (splice_returns d (lower t)
              (finditer (compile_keys (keys d)) (lower t)) 0 ∅) as [out Hout].
  { intros b w. by apply finditer_lower_keys. }
  unfold bulk_replace, sub. rewrite Hout, IH. by eexists.
Qed.

Lemma clean_all_length (d : dict) (p : Pattern) (l : list text)
    (ys : list text) :
  clean_all d p l = inr ys -> length ys = length l.
Proof.
  revert ys; induction l as [|t l IH]; intros ys; simpl.
  - by intros [= <-].
  - destruct (clean_text d p t); [done|].
    destruct (clean_all d p l) as [|zs]; [done|].
    intros [= <-]. simpl. by rewrite (IH zs).
Qed.

Lemma dict_set_same {V} (d : list (text * V)) (k : text) (v : V) :
  dict_get d k = Some v -> dict_set d k v = d.
Proof.
  induction d as [|[k1 v1] d IH]; simpl; [done|].
  destruct (decide (k1 = k)) as [->|Hne]; [by intros [= ->]|].
  intros H. by rewrite IH.
Qed.

Lemma clean_notes_run (df : DataFrame) (d : dict) (p : Pattern)
    (notes : list cell) :
  dict_get df (txt "Clinical Notes") = Some notes ->
  let original := map Str (map str notes) in
  let r := series_apply (note_fn d p) (map str notes) ∅ in
  clean_notes df d p
  = match r.2 with
    | inr cleaned =>
        (dict_set (dict_set df (txt "Original Notes") original)
                  (txt "Cleaned Notes") (map Str cleaned), inr r.1)
    | inl e => (dict_set df (txt "Original Notes") original, inl e)
    end.
Proof.
  intros Hnotes. unfold clean_notes. rewrite Hnotes. simpl.
  by destruct (series_apply _ (map str notes) ∅) as [c [e|cleaned]].
Qed.

(** X14.  With a dictionary that is not empty and the pattern compiled
    from its keys, [clean_notes] raises exactly when the frame has no
    'Clinical Notes' column: then it raises [KeyError] and leaves the
    frame as it was; otherwise it returns a counter. *)
Theorem clean_notes_returns (df : DataFrame) (d : dict) :
  d <> [] ->
  (dict_get df (txt "Clinical Notes") = None ->
   clean_notes df d (compile_keys (keys d))
   = (df, inl (KeyError (txt "Clinical Notes"))))
  /\ (forall notes, dict_get df (txt "Clinical Notes") = Some notes ->
      exists counter,
        (clean_notes df d (compile_keys (keys d))).2 = inr counter).
Proof.
  intros Hne. split.
  - intros Hnone. unfold clean_notes. by rewrite Hnone.
  - intros notes Hnotes. rewrite (clean_notes_run _ _ _ notes Hnotes).
    simpl. destruct (clean_all_returns d (map str notes) Hne) as [ys Hys].
    rewrite series_apply_clean_all, Hys. by eexists.
Qed.

Lemma clean_notes_returns_witness :
  exists counter,
    (clean_notes (one_note (txt "Pt c/o HR")) scenario_dict
       (compile_keys (keys scenario_dict))).2 = inr counter.
Proof.
  destruct (clean_notes_returns (one_note (txt "Pt c/o HR")) scenario_dict)
    as [_ H]; [discriminate|].
  by eapply H.
Defined.

(** X15.  Every note is cleaned on its own: the cleaned column holds, row
    by row, [apply_regex] of [bulk_replace] of the note as a counter of
    its own would give it, one cleaned note for each note; and the
    exception of [clean_notes], if any, is that of the first note that
    raises. *)
Theorem clean_notes_row_by_row (df : DataFrame) (d : dict) (p : Pattern)
    (notes : list cell) :
  dict_get df (txt "Clinical Notes") = Some notes ->
  match clean_all d p (map str notes) with
  | inr cleaned =>
      (exists counter, (clean_notes df d p).2 = inr counter)
      /\ dict_get (clean_notes df d p).1 (txt "Cleaned Notes")
         = Some (map Str cleaned)
      /\ length cleaned = length notes
  | inl e => (clean_notes df d p).2 = inl e
  end.
Proof.
  intros Hnotes. rewrite (clean_notes_run _ _ _ notes Hnotes). simpl.
  rewrite series_apply_clean_all.
  destruct (clean_all d p (map str notes)) as [e|cleaned] eqn:E; [done|].
  simpl. split_and!; [by eexists| |].
  - rewrite dict_get_set. by rewrite decide_True.
  - apply clean_all_length in E. by rewrite E, length_map.
Qed.

Lemma clean_notes_row_by_row_witness :
  match clean_all scenario_dict scenario_pattern
          (map str [Str (txt "Pt c/o HR"); NaN]) with
  | inr cleaned =>
      (exists counter,
          (clean_notes [(txt "Clinical Notes", [Str (txt "Pt c/o HR"); NaN])]
             scenario_dict scenario_pattern).2 = inr counter)
      /\ dict_get
           (clean_notes [(txt "Clinical Notes", [Str (txt "Pt c/o HR"); NaN])]
              scenario_dict scenario_pattern).1 (txt "Cleaned Notes")
         = Some (map Str cleaned)
      /\ length cleaned = length [Str (txt "Pt c/o HR"); NaN]
  | inl e =>
      (clean_notes [(txt "Clinical Notes", [Str (txt "Pt c/o HR"); NaN])]
         scenario_dict scenario_pattern).2 = inl e
  end.
Proof. apply clean_notes_row_by_row. reflexivity. Defined.

(** X16.  The counter that [clean_notes] returns holds, for every word,
    the number of matches of that word summed over the notes. *)
Theorem clean_notes_counts (df : DataFrame) (d : dict) (p : Pattern)
    (notes : list cell) (counter : Counter) (k : text) :
  dict_get df (txt "Clinical Notes") = Some notes ->
  (clean_notes df d p).2 = inr counter ->
  count counter k
  = Z.of_nat (sum_list_with
                (fun t => times k (finditer p (lower t))) (map str notes)).
Proof.
  intros Hnotes. rewrite (clean_notes_run _ _ _ notes Hnotes). simpl.
  pose proof (series_apply_counts d p (map str notes) ∅ k) as Hc.
  destruct (series_apply _ (map str notes) ∅).2 as [e|cleaned]; [done|].
  simpl. intros [= <-]. rewrite Hc by (by eexists).
  unfold count. rewrite lookup_empty. simpl. lia.
Qed.

Lemma clean_notes_counts_witness :
  count {[ txt "c/o" := 1%Z; txt "hr" := 2%Z ]} (txt "hr")
  = Z.of_nat (sum_list_with
                (fun t => times (txt "hr")
                            (finditer scenario_pattern (lower t)))
                (map str [Str (txt "Pt c/o HR"); Str (txt "hr")])).
Proof.
  apply (clean_notes_counts
           [(txt "Clinical Notes", [Str (txt "Pt c/o HR"); Str (txt "hr")])]
           scenario_dict scenario_pattern).
  - reflexivity.
  - vm_compute. reflexivity.
Defined.

(** X17.  Every word of the counter that [clean_notes] returns is a key of
    the dictionary and has a count of at least 1: the reports that look
    the counted words up in the dictionary find each of them. *)
Theorem clean_notes_reportable (df : DataFrame) (d : dict) (p : Pattern)
    (counter : Counter) :
  (clean_notes df d p).2 = inr counter -> reportable d counter.
Proof.
  unfold clean_notes.
  destruct (dict_get df (txt "Clinical Notes")) as [notes|]; [|done].
  pose proof (series_apply_reportable d p (map str notes) ∅) as Hr.
  destruct (series_apply _ (map str notes) ∅) as [c [e|cleaned]]; [done|].
  simpl in *. intros [= <-]. apply Hr; [|by eexists].
  intros k n. by rewrite lookup_empty.
Qed.

Lemma clean_notes_reportable_witness :
  reportable scenario_dict {[ txt "c/o" := 1%Z; txt "hr" := 2%Z ]}.
Proof.
  apply (clean_notes_reportable
           [(txt "Clinical Notes", [Str (txt "Pt c/o HR"); Str (txt "hr")])]
           scenario_dict scenario_pattern).
  vm_compute. reflexivity.
Defined.

(** X18.  [clean_notes] writes the columns 'Original Notes' and 'Cleaned
    Notes' only: every other column of the frame is as it was; and when no
    clinical note is missing, 'Original Notes' holds the notes as strings,
    also when the cleaning raises. *)
Theorem clean_notes_frame (df : DataFrame) (d : dict) (p : Pattern) :
  (forall name, name <> txt "Original Notes" -> name <> txt "Cleaned Notes" ->
                dict_get (clean_notes df d p).1 name = dict_get df name)
  /\ (forall notes, dict_get df (txt "Clinical Notes") = Some notes ->
                    Forall (fun n => n <> NaN) notes ->
                    dict_get (clean_notes df d p).1 (txt "Original Notes")
                    = Some (map Str (map str notes))).
Proof.
  split.
  - intros name Ho Hc. unfold clean_notes.
    destruct (dict_get df (txt "Clinical Notes")) as [notes|]; [|done].
    destruct (series_apply _ (map str notes) ∅) as [c [e|cleaned]]; simpl;
      rewrite ?dict_get_set, ?decide_False; done.
  - intros notes Hnotes _.
    rewrite (clean_notes_run _ _ _ notes Hnotes). simpl.
    destruct (series_apply _ (map str notes) ∅).2 as [e|cleaned]; simpl.
    + rewrite dict_get_set. by rewrite decide_True.
    + rewrite dict_get_set, decide_False by done.
      rewrite dict_get_set. by rewrite decide_True.
Qed.

Lemma clean_notes_frame_witness :
  dict_get (clean_notes (one_note (txt "Pt c/o HR")) scenario_dict
              scenario_pattern).1 (txt "Original Notes")
  = Some (map Str (map str [Str (txt "Pt c/o HR")])).
Proof.
  destruct (clean_notes_frame (one_note (txt "Pt c/o HR")) scenario_dict
              scenario_pattern) as [_ H].
  apply H; [reflexivity|]. repeat constructor. discriminate.
Defined.

(** X19.  A second run of [clean_notes] on the frame that the first run
    has updated leaves that frame as it is. *)
Theorem clean_notes_frame_fixed (df : DataFrame) (d : dict) (p : Pattern) :
  (clean_notes (clean_notes df d p).1 d p).1 = (clean_notes df d p).1.
Proof.
  destruct (dict_get df (txt "Clinical Notes")) as [notes|] eqn:Hnotes.
  2:{ unfold clean_notes at 2 3. rewrite Hnotes. simpl.
      unfold clean_notes. by rewrite Hnotes. }
  rewrite (clean_notes_run df d p notes Hnotes). simpl.
  destruct (series_apply _ (map str notes) ∅).2 as [e|cleaned] eqn:E; simpl.
  - rewrite (clean_notes_run _ d p notes)
      by (rewrite dict_get_set, decide_False; done).
    simpl. rewrite E. simpl. apply dict_set_same.
    rewrite dict_get_set. by rewrite decide_True.
  - rewrite (clean_notes_run _ d p notes)
      by (rewrite !dict_get_set, !decide_False; done).
    simpl. rewrite E. simpl.
    rewrite (dict_set_same _ (txt "Original Notes")).
    + apply dict_set_same. rewrite dict_get_set. by rewrite decide_True.
    + rewrite !dict_get_set, decide_False by done. by rewrite decide_True.
Qed.

(** ** The callers *)

Lemma lstrip_nil (s : text) : lstrip s = [] <-> forallb is_space s = true.
Proof.
  induction s as [|c tl IH]; simpl; [done|].
  destruct (is_space c); simpl; [done|]. split; discriminate.
Qed.

Lemma strip_nil (s : text) : strip s = [] <-> forallb is_space s = true.
Proof.
  rewrite <- lstrip_nil. unfold strip. rewrite rstrip_trim_trailing.
  split; [|by intros ->].
  pose proof (lstrip_starts s) as Hst.
  destruct (lstrip s) as [|x r]; [done|]. simpl in *.
  destruct (trim_trailing r); [by rewrite Hst|done].
Qed.

(** X21.  For a text file, cleaner.py keeps the lines that hold something
    else than whitespace, in their order and trimmed: no note of the frame
    is empty or has whitespace at either end. *)
Theorem load_txt_notes (lines : list text) :
  let notes :=
    map strip (List.filter (fun line => negb (forallb is_space line)) lines) in
  dict_get (load_txt lines) (txt "Clinical Notes") = Some (map Str notes)
  /\ Forall (fun n => n <> [] /\ strip n = n) notes.
Proof.
  assert (forall line, negb (is_nil (strip line))
                       = negb (forallb is_space line)) as Hblank.
  { intros line. f_equal. pose proof (strip_nil line) as H.
    destruct (strip line), (forallb is_space line); simpl; try done.
    - destruct H as [H _]. by specialize (H eq_refl).
    - destruct H as [_ H]. by specialize (H eq_refl). }
  split.
  - unfold load_txt. simpl. f_equal.
    rewrite (filter_ext _ _ Hblank). by rewrite map_map.
  - apply List.Forall_forall. intros n (line & <- & Hline)%in_map_iff.
    apply filter_In in Hline as [_ Hline]. split; [|apply strip_idem].
    intros Hn%strip_nil. by rewrite Hn in Hline.
Qed.

Lemma split_dotless (sep : ascii) (e : text) :
  ~ In sep e -> split sep e = [e].
Proof.
  induction e as [|c e IH]; simpl; [done|]. intros Hno.
  destruct (Ascii.eqb_spec c sep) as [->|Hne]; [destruct Hno; by left|].
  rewrite IH; [done|]. intros ?. apply Hno. by right.
Qed.

Lemma split_last (sep : ascii) (stem e : text) :
  ~ In sep e ->
  exists segs, segs <> [] /\ split sep (stem ++ sep :: e) = segs ++ [e].
Proof.
  intros Hno. induction stem as [|c stem (segs & Hne & IH)]; simpl.
  - rewrite Ascii.eqb_refl, split_dotless by done. by exists [ [] ].
  - destruct (Ascii.eqb c sep).
    + exists ([] :: segs). split; [done|]. by rewrite IH.
    + rewrite IH. destruct segs as [|seg segs]; [done|].
      by exists ((c :: seg) :: segs).
Qed.

(** X22.  The extension that app.py reads off an uploaded file name is the
    text after its last dot, in lower case; a name without a dot is its
    own extension, so the reader chosen for "notes.CSV" is the one chosen
    for "csv". *)
Theorem upload_ext_last (stem e : text) :
  ~ In "." e ->
  upload_ext (stem ++ "." :: e) = lower e
  /\ upload_ext e = lower e
  /\ upload_reader (stem ++ "." :: e) = upload_reader e.
Proof.
  intros Hno.
  assert (upload_ext (stem ++ "." :: e) = lower e) as H1.
  { unfold upload_ext. destruct (split_last "." stem e Hno) as (segs & _ & ->).
    by rewrite last_last. }
  assert (upload_ext e = lower e) as H2.
  { unfold upload_ext. by rewrite split_dotless. }
  split_and!; [done..|]. unfold upload_reader. by rewrite H1, H2.
Qed.

Lemma upload_ext_last_witness :
  upload_ext (txt "ward.notes" ++ "." :: txt "CSV") = lower (txt "CSV")
  /\ upload_ext (txt "CSV") = lower (txt "CSV")
  /\ upload_reader (txt "ward.notes" ++ "." :: txt "CSV")
     = upload_reader (txt "CSV").
Proof.
  apply upload_ext_last. vm_compute. intros H.
  repeat destruct H as [[=]|H]. done.
Defined.

(** ** The empty key and the empty table *)

Lemma first_occurrences_In (seen l : list text) (x : text) :
  In x (first_occurrences seen l) <-> In x l /\ x ∉ seen.
Proof.
  revert seen; induction l as [|y l IH]; intros seen; simpl; [tauto|].
  destruct (decide (y ∈ seen)) as [Hy|Hy].
  - rewrite IH. split; [tauto|]. intros [[->|?] ?]; tauto.
  - simpl. rewrite IH, not_elem_of_app, list_elem_of_singleton.
    split.
    + intros [->|(? & ? & ?)]; tauto.
    + intros [[->|?] ?]; [by left|].
      destruct (decide (x = y)) as [->|?]; [by left|right; tauto].
Qed.

Lemma lower_nil (s : text) : lower s = [] <-> s = [].
Proof. by destruct s. Qed.

(** X23.  Nothing keeps the empty shorthand out of the table: the empty
    text is a key exactly when a complete row of the file has a shorthand
    made of whitespace only. *)
Theorem load_replacements_empty_key (rows : list row) :
  In [] (keys (load_replacements rows).1)
  <-> exists e, In e (dropna rows) /\ forallb is_space e.1 = true.
Proof.
  rewrite load_replacements_table, keys_fold_set. simpl.
  rewrite first_occurrences_In. unfold entries. rewrite map_map.
  rewrite in_map_iff. split.
  - intros [(e & He & Hin) _]. exists e. split; [done|].
    simpl in He. by apply strip_nil, lower_nil.
  - intros (e & Hin & He). split; [|apply not_elem_of_nil].
    exists e. split; [|done]. simpl. by apply lower_nil, strip_nil.
Qed.

Section empty_table.

Context (p : Pattern).

(** Before the first word character there is no word boundary. *)
Lemma finditer_from_skip (ws rest : text) (pos : nat) :
  forallb (fun ch => negb (is_word ch)) ws = true ->
  finditer_from p false pos 0 (ws ++ rest)
  = finditer_from p false (pos + length ws) 0 rest.
Proof.
  revert pos; induction ws as [|c ws IH]; intros pos Hws; simpl.
  - by rewrite Nat.add_0_r.
  - simpl in Hws. apply andb_true_iff in Hws as [Hc%negb_true_iff Hws].
    assert (matches_at p false (c :: ws ++ rest) = []) as ->.
    { unfold matches_at, match_here.
      destruct (List.find _ (alts p)) as [a|] eqn:E; [|done].
      apply find_some in E as [_ E]. unfold match_alt, at_boundary in E.
      simpl in E. by rewrite Hc in E. }
    simpl. rewrite Hc, IH by done. f_equal. lia.
Qed.

End empty_table.

(** X24.  With the empty table and its pattern, [bulk_replace] raises
    [KeyError('')] for exactly the texts that hold a word character; the
    others come back in lower case. *)
Theorem bulk_replace_empty_table (t : text) (c : Counter) :
  (bulk_replace t [] empty_pattern c).2
  = if existsb is_word t then inl (KeyError []) else inr (lower t).
Proof.
  destruct (existsb is_word t) eqn:Hw.
  - assert (exists ws ch rest,
              lower t = ws ++ ch :: rest
              /\ forallb (fun x => negb (is_word x)) ws = true
              /\ is_word ch = true) as (ws & ch & rest & Ht & Hws & Hch).
    { clear c. induction t as [|x t IH]; simpl in Hw; [done|].
      destruct (is_word x) eqn:Hx.
      - exists [], (lower_char x), (lower t). simpl.
        by rewrite is_word_lower_char.
      - destruct (IH Hw) as (ws & ch & rest & Ht & Hws & Hch).
        exists (lower_char x :: ws), ch, rest. simpl.
        rewrite is_word_lower_char, Hx, Ht. done. }
    unfold bulk_replace, sub, finditer. rewrite Ht.
    rewrite finditer_from_skip by done. simpl.
    assert (matches_at empty_pattern false (ch :: rest) = [ [] ]) as ->.
    { unfold matches_at, match_here, match_alt, at_boundary. cbn.
      rewrite Hch. cbn. done. }
    simpl. done.
  - assert (forallb (fun ch => negb (is_word ch)) t = true) as Hno.
    { clear c. induction t as [|x t IH]; simpl in *; [done|].
      apply orb_false_iff in Hw as [-> Hw]. by rewrite IH. }
    unfold bulk_replace, sub, finditer.
    rewrite (finditer_from_nil _ (lower t) [] 0); [done|].
    intros a i _ _. unfold bounded_occurrence.
    rewrite no_word_no_boundary, andb_false_r; [done|].
    unfold lower. rewrite forallb_forall in *.
    intros ch (x & <- & Hx)%in_map_iff. rewrite is_word_lower_char.
    by apply Hno.
Qed.

(** ** Whitespace around a note *)

Lemma is_space_not_word (c : ascii) : is_space c = true -> is_word c = false.
Proof.
  destruct c as [[] [] [] [] [] [] [] []]; (reflexivity || discriminate).
Qed.

Lemma spaces_not_word (ws : text) :
  forallb is_space ws = true ->
  forallb (fun ch => negb (is_word ch)) ws = true.
Proof.
  induction ws as [|c ws IH]; simpl; [done|].
  intros [Hc Hws]%andb_true_iff.
  by rewrite (is_space_not_word c Hc), IH.
Qed.

Lemma lower_spaces (ws : text) :
  forallb is_space ws = true -> forallb is_space (lower ws) = true.
Proof.
  induction ws as [|c ws IH]; simpl; [done|].
  intros [Hc Hws]%andb_true_iff. by rewrite is_space_lower_char, Hc, IH.
Qed.

Lemma lstrip_split (s : text) :
  exists ws, s = ws ++ lstrip s /\ forallb is_space ws = true.
Proof.
  induction s as [|c s (ws & Hs & Hws)]; simpl; [by exists []|].
  destruct (is_space c) eqn:Hc; [|by exists []].
  exists (c :: ws). simpl. by rewrite Hc, Hws, <- Hs.
Qed.

Lemma trim_trailing_split (s : text) :
  exists ws, s = trim_trailing s ++ ws /\ forallb is_space ws = true.
Proof.
  induction s as [|c s (ws & Hs & Hws)]; simpl; [by exists []|].
  destruct (trim_trailing s) as [|x r].
  - simpl in Hs. subst s. destruct (is_space c) eqn:Hc.
    + exists (c :: ws). simpl. by rewrite Hc.
    + by exists ws.
  - exists ws. by rewrite Hs at 1.
Qed.

(** A text is its trimmed text between two runs of whitespace. *)
Lemma strip_split (s : text) :
  exists ws1 ws2,
    s = ws1 ++ strip s ++ ws2
    /\ forallb is_space ws1 = true /\ forallb is_space ws2 = true.
Proof.
  destruct (lstrip_split s) as (ws1 & Hs & Hws1).
  destruct (trim_trailing_split (lstrip s)) as (ws2 & Hl & Hws2).
  exists ws1, ws2. unfold strip. rewrite rstrip_trim_trailing.
  by rewrite <- Hl, <- Hs.
Qed.

Lemma ends_word_last (prev : bool) (a : text) :
  ends_word prev a
  = match last a with Some c => is_word c | None => prev end.
Proof.
  revert prev; induction a as [|c a IH]; intros prev; [done|].
  simpl. rewrite IH. destruct a as [|x a]; [done|].
  rewrite last_cons_cons.
  destruct (last (x :: a)) eqn:E; [done|]. by apply last_None in E.
Qed.

Lemma starts_word_app (rest ws : text) :
  forallb (fun ch => negb (is_word ch)) ws = true ->
  starts_word (rest ++ ws) = starts_word rest.
Proof.
  destruct rest as [|c rest]; [|done]. destruct ws as [|x ws]; [done|].
  simpl. by intros [->%negb_true_iff _]%andb_true_iff.
Qed.

Lemma find_ext {A} (f g : A -> bool) (l : list A) :
  (forall x, f x = g x) -> List.find f l = List.find g l.
Proof.
  intros H. induction l as [|x l IH]; simpl; [done|]. by rewrite H, IH.
Qed.

Section scan_whitespace.

Context (p : Pattern) (ws : text).
Hypothesis Hws : forallb (fun ch => negb (is_word ch)) ws = true.

Lemma match_alt_suffix (prev : bool) (rest : text) (adv : bool) (a : text) :
  match_alt prev (rest ++ ws) adv a = match_alt prev rest adv a.
Proof.
  unfold match_alt, at_boundary.
  rewrite starts_word_app, !strip_prefix_spec by done. f_equal.
  destruct (decide (length a <= length rest)) as [Hle|Hgt].
  - rewrite take_app_le, drop_app_le by done.
    destruct (decide (take (length a) rest = a)); [|done].
    by rewrite starts_word_app.
  - rewrite (decide_False (P := take (length a) rest = a)).
    2:{ intros E. apply (f_equal length) in E.
        rewrite length_take in E. lia. }
    destruct (decide (take (length a) (rest ++ ws) = a)) as [E|]; [|done].
    rewrite take_app_ge, drop_app_ge in * by lia.
    assert (forall x, x ∈ ws -> is_word x = false) as Hw.
    { intros x Hx%list_elem_of_In. rewrite forallb_forall in Hws.
      by apply negb_true_iff, Hws. }
    assert (ends_word prev a = false) as ->.
    { rewrite ends_word_last, <- E.
      destruct (take (length a - length rest) ws) as [|y r] eqn:Et.
      - apply (f_equal length) in Et. rewrite length_take in Et.
        apply (f_equal length) in E. rewrite app_nil_r in E.
        simpl in Et. lia.
      - rewrite last_app.
        destruct (last (y :: r)) as [z|] eqn:El; [|by apply last_None in El].
        apply Hw, (subseteq_take (length a - length rest) ws).
        rewrite Et. by apply last_Some_elem_of. }
    destruct (drop (length a - length rest) ws) as [|y r] eqn:Ed; [done|].
    simpl. rewrite Hw; [done|].
    apply (subseteq_drop (length a - length rest) ws).
    rewrite Ed. apply elem_of_cons. by left.
Qed.

Lemma matches_at_suffix (prev : bool) (rest : text) :
  matches_at p prev (rest ++ ws) = matches_at p prev rest.
Proof.
  unfold matches_at, match_here.
  by rewrite !(find_ext _ _ _ (match_alt_suffix prev rest _)).
Qed.

End scan_whitespace.

Section scan_affixes.

Context (p : Pattern).

Lemma finditer_from_nonword (ws : text) (pos skip : nat) :
  forallb (fun ch => negb (is_word ch)) ws = true ->
  finditer_from p false pos skip ws = [].
Proof.
  revert pos skip; induction ws as [|c ws IH]; intros pos skip Hws.
  - destruct skip; [|done]. simpl.
    unfold matches_at, match_here.
    destruct (List.find _ (alts p)) as [a|] eqn:E; [|done].
    apply find_some in E as [_ E]. by unfold match_alt, at_boundary in E.
  - simpl in Hws. apply andb_true_iff in Hws as [Hc%negb_true_iff Hws].
    destruct skip; simpl; rewrite Hc; [|by apply IH].
    assert (matches_at p false (c :: ws) = []) as ->.
    { unfold matches_at, match_here.
      destruct (List.find _ (alts p)) as [a|] eqn:E; [|done].
      apply find_some in E as [_ E]. unfold match_alt, at_boundary in E.
      simpl in E. by rewrite Hc in E. }
    simpl. by apply IH.
Qed.

Lemma finditer_from_suffix (ws rest : text) (prev : bool) (pos skip : nat) :
  forallb (fun ch => negb (is_word ch)) ws = true ->
  finditer_from p prev pos skip (rest ++ ws)
  = finditer_from p prev pos skip rest.
Proof.
  intros Hws.
  revert prev pos skip; induction rest as [|c rest IH]; intros prev pos skip.
  - destruct ws as [|x ws']; [done|].
    pose proof Hws as Hws0. simpl in Hws.
    apply andb_true_iff in Hws as [Hx%negb_true_iff Hws'].
    destruct skip; simpl; rewrite Hx.
    + pose proof (matches_at_suffix p (x :: ws') Hws0 prev []) as Hm.
      simpl in Hm. rewrite Hm.
      by rewrite finditer_from_nonword, app_nil_r.
    + by apply finditer_from_nonword.
  - destruct skip; simpl; [|apply IH].
    pose proof (matches_at_suffix p ws Hws prev (c :: rest)) as Hm.
    simpl in Hm. by rewrite Hm, IH.
Qed.

Lemma finditer_from_shift (n : nat) (rest : text) (prev : bool)
    (pos skip : nat) :
  finditer_from p prev (pos + n) skip rest
  = map (fun m => (m.1 + n, m.2)) (finditer_from p prev pos skip rest).
Proof.
  revert prev pos skip; induction rest as [|c rest IH]; intros prev pos skip.
  - destruct skip; simpl; [|done]. by rewrite map_map.
  - destruct skip; simpl.
    + rewrite map_app, map_map. f_equal. apply (IH _ (S pos)).
    + apply (IH _ (S pos)).
Qed.

(** The matches of a text between two runs of characters that are not
    word characters are those of the text, moved by the length of the
    first run. *)
Lemma finditer_affixes (ws1 x ws2 : text) :
  forallb (fun ch => negb (is_word ch)) ws1 = true ->
  forallb (fun ch => negb (is_word ch)) ws2 = true ->
  finditer p (ws1 ++ x ++ ws2)
  = map (fun m => (m.1 + length ws1, m.2)) (finditer p x).
Proof.
  intros H1 H2. unfold finditer.
  rewrite finditer_from_skip, finditer_from_suffix by done.
  apply (finditer_from_shift (length ws1) x false 0 0).
Qed.

End scan_affixes.

Section splice_affixes.

Context (repl : text -> M text).

Lemma splice_shift (ws x : text) (ms : list (nat * text)) (i : nat)
    (c : Counter) :
  splice repl (ws ++ x) (i + length ws)
    (map (fun m => (m.1 + length ws, m.2)) ms) c
  = splice repl x i ms c.
Proof.
  revert i c; induction ms as [|[b w] ms IH]; intros i c; simpl.
  - unfold ret. by rewrite Nat.add_comm, <- drop_drop, drop_app_length.
  - unfold bind at 1 3. destruct (repl w c) as [c1 [e|r]]; [done|].
    unfold bind at 1 2.
    replace (b + length ws + length w) with (b + length w + length ws)
      by lia.
    rewrite IH. destruct (splice repl x _ ms c1) as [c2 [e|tl]]; [done|].
    unfold ret. do 3 f_equal.
    rewrite (Nat.add_comm i), <- drop_drop, drop_app_length. f_equal. lia.
Qed.

(** The text before the first match is copied. *)
Lemma splice_prefix (ws x : text) (ms : list (nat * text)) (c : Counter) :
  splice repl (ws ++ x) 0 (map (fun m => (m.1 + length ws, m.2)) ms) c
  = match splice repl x 0 ms c with
    | (c', inr out) => (c', inr (ws ++ out))
    | (c', inl e) => (c', inl e)
    end.
Proof.
  destruct ms as [|[b w] ms]; simpl; [done|].
  unfold bind at 1 3. destruct (repl w c) as [c1 [e|r]]; [done|].
  unfold bind at 1 2.
  replace (b + length ws + length w) with (b + length w + length ws) by lia.
  rewrite splice_shift.
  destruct (splice repl x _ ms c1) as [c2 [e|tl]]; [done|].
  unfold ret. do 2 f_equal.
  rewrite !Nat.sub_0_r, !drop_0, (Nat.add_comm b), take_app_add.
  by rewrite <- app_assoc.
Qed.

(** The text after the last match is copied. *)
Lemma splice_suffix (x ws : text) (ms : list (nat * text)) (i : nat)
    (c : Counter) :
  i <= length x -> coherent x i ms ->
  splice repl (x ++ ws) i ms c
  = match splice repl x i ms c with
    | (c', inr out) => (c', inr (out ++ ws))
    | (c', inl e) => (c', inl e)
    end.
Proof.
  revert i c; induction ms as [|[b w] ms IH]; intros i c Hi Hco; simpl.
  - unfold ret. by rewrite drop_app_le.
  - simpl in Hco. destruct Hco as (Hib & Hbx & _ & Hco).
    unfold bind at 1 3. destruct (repl w c) as [c1 [e|r]]; [done|].
    unfold bind at 1 2. rewrite IH by (done || lia).
    destruct (splice repl x _ ms c1) as [c2 [e|tl]]; [done|].
    unfold ret. do 2 f_equal.
    rewrite drop_app_le by done.
    rewrite take_app_le by (rewrite length_drop; lia).
    by rewrite <- !app_assoc.
Qed.

End splice_affixes.

Lemma lstrip_spaces_app (ws s : text) :
  forallb is_space ws = true -> lstrip (ws ++ s) = lstrip s.
Proof.
  induction ws as [|c ws IH]; simpl; [done|].
  intros [-> Hws]%andb_true_iff. by apply IH.
Qed.

Lemma collapse_lstrip (b : bool) (s : text) :
  lstrip (sub_class_plus is_space [" "] b s)
  = sub_class_plus is_space [" "] false (lstrip s).
Proof.
  assert (forall z, starts_space z = false ->
            lstrip (sub_class_plus is_space [" "] false z)
            = sub_class_plus is_space [" "] false z) as Hns.
  { intros [|c z]; simpl; [done|]. intros Hc. rewrite Hc. simpl.
    by rewrite Hc. }
  destruct s as [|c s]; [by destruct b|]. simpl.
  destruct (is_space c) eqn:Hc.
  - assert (lstrip (sub_class_plus is_space [" "] true s)
            = sub_class_plus is_space [" "] false (lstrip s)) as Htl.
    { rewrite sub_class_plus_in_run. apply Hns, lstrip_starts. }
    destruct b; simpl; done.
  - simpl. by rewrite Hc.
Qed.

Lemma trim_trailing_spaces (ws : text) :
  forallb is_space ws = true -> trim_trailing ws = [].
Proof.
  induction ws as [|c ws IH]; simpl; [done|].
  intros [-> Hws]%andb_true_iff. by rewrite IH.
Qed.

Lemma collapse_spaces (b : bool) (ws : text) :
  forallb is_space ws = true ->
  forallb is_space (sub_class_plus is_space [" "] b ws) = true.
Proof.
  revert b; induction ws as [|c ws IH]; intros b; simpl; [done|].
  intros [Hc Hws]%andb_true_iff. rewrite Hc.
  rewrite forallb_app, IH by done. by destruct b.
Qed.

Lemma trim_trailing_collapse_app (b : bool) (s ws : text) :
  forallb is_space ws = true ->
  trim_trailing (sub_class_plus is_space [" "] b (s ++ ws))
  = trim_trailing (sub_class_plus is_space [" "] b s).
Proof.
  intros Hws. revert b; induction s as [|c s IH]; intros b; simpl.
  - by apply trim_trailing_spaces, collapse_spaces.
  - destruct (is_space c).
    + destruct b; simpl; by rewrite IH.
    + simpl. by rewrite IH.
Qed.

(** Whitespace around a text does not show in what [apply_regex] makes of
    it. *)
Lemma apply_regex_affixes (ws1 y ws2 : text) :
  forallb is_space ws1 = true -> forallb is_space ws2 = true ->
  apply_regex (ws1 ++ y ++ ws2) = apply_regex y.
Proof.
  intros H1 H2.
  assert (forall ws, forallb is_space ws = true ->
            sub_class unwanted [] ws = ws) as Hkeep.
  { intros ws Hws. rewrite sub_class_nil.
    induction ws as [|c ws IH]; simpl in *; [done|].
    apply andb_true_iff in Hws as [Hc Hws]. unfold unwanted at 1.
    rewrite Hc, orb_true_r. simpl. by rewrite IH. }
  unfold apply_regex, strip.
  assert (forall a b, sub_class unwanted [] (a ++ b)
                      = sub_class unwanted [] a ++ sub_class unwanted [] b)
    as Happ by (intros a b; unfold sub_class; apply flat_map_app).
  rewrite !Happ, (Hkeep ws1 H1), (Hkeep ws2 H2).
  rewrite !rstrip_trim_trailing, !collapse_lstrip.
  rewrite lstrip_spaces_app by done.
  set (z := sub_class unwanted [] y).
  destruct (lstrip z) as [|c r] eqn:Ez.
  - apply lstrip_nil in Ez.
    assert (lstrip (z ++ ws2) = []) as ->; [|done].
    apply lstrip_nil. by rewrite forallb_app, Ez, H2.
  - assert (lstrip (z ++ ws2) = (c :: r) ++ ws2) as ->.
    { destruct (lstrip_split z) as (ws & Hz & Hws). rewrite Ez in Hz.
      rewrite Hz at 1. rewrite <- app_assoc, lstrip_spaces_app by done.
      simpl. pose proof (lstrip_starts z) as Hst. rewrite Ez in Hst.
      simpl in Hst. by rewrite Hst. }
    by apply trim_trailing_collapse_app.
Qed.

(** X25.  Whitespace before and after a note changes neither its cleaned
    text nor the counts: cleaning the trimmed note, as cleaner.py does for
    the lines of a text file, gives what cleaning the note gives. *)
Theorem clean_text_strip (d : dict) (p : Pattern) (t : text) (c : Counter) :
  clean_text d p (strip t) = clean_text d p t
  /\ (bulk_replace (strip t) d p c).1 = (bulk_replace t d p c).1.
Proof.
  destruct (strip_split t) as (ws1 & ws2 & Ht & H1 & H2).
  assert (forall c0,
    bulk_replace t d p c0
    = match bulk_replace (strip t) d p c0 with
      | (c', inr out) => (c', inr (lower ws1 ++ out ++ lower ws2))
      | (c', inl e) => (c', inl e)
      end) as Hrun.
  { intros c0.
    assert (lower t = lower ws1 ++ lower (strip t) ++ lower ws2) as Hl.
    { rewrite Ht at 1. unfold lower. by rewrite !map_app. }
    unfold bulk_replace, sub. rewrite Hl.
    rewrite finditer_affixes
      by (by apply spaces_not_word, lower_spaces).
    rewrite splice_prefix, splice_suffix;
      [|lia|apply finditer_coherent].
    by destruct (splice _ (lower (strip t)) 0 _ c0) as [c' [e|out]]. }
  split.
  - unfold clean_text. rewrite (Hrun ∅).
    destruct (bulk_replace (strip t) d p ∅) as [c' [e|out]]; [done|].
    simpl. f_equal. symmetry.
    by apply apply_regex_affixes; apply lower_spaces.
  - rewrite (Hrun c).
    by destruct (bulk_replace (strip t) d p c) as [c' [e|out]].
Qed.
